(** * ECDH over a prime field: a shallow embedding of [primefield.h] and [ecdh.c]

    The C program works on GMP integers ([mpz_t]), which are unbounded: they
    are embedded as [Z].  C strings are embedded as lists of characters
    without their terminating NUL; a buffer that is written by index is a
    list of characters that may contain NULs.  Functions that return their
    result through a first [mpz_t res] argument are embedded as functions
    returning that value. *)

From Stdlib Require Import ZArith List Ascii String Bool Lia Znumtheory.
From Stdlib Require Import Zdivisibility Zpow_facts Setoid Morphisms.
From Stdlib Require ZmodInv.
From Stdlib.Strings Require Byte.
Import ListNotations.
Local Open Scope Z_scope.

(** ** Outcomes of a call

    None of the C functions has an error channel of its own; the error kinds
    are the ones the specification names.  [Undefined] stands for a call
    that has no result: its C behaviour is undefined (an out-of-bounds
    write) or its loop does not end. *)

Inductive error : Type :=
| DivisionByZero
| MalformedEncoding
| UnsupportedCurveIdentifier
| RandomnessUnavailable.

Inductive outcome (A : Type) : Type :=
| Returned (v : A)
| Raised (e : error)
| Undefined.

Arguments Returned {A} v.
Arguments Raised {A} e.
Arguments Undefined {A}.

Definition bind {A B : Type} (o : outcome A) (k : A -> outcome B) : outcome B :=
  match o with
  | Returned v => k v
  | Raised e => Raised e
  | Undefined => Undefined
  end.

(** ** The GMP functions the program calls, after the GMP manual *)

Module Gmp.

Definition str := list ascii.

Definition lit (s : string) : str := list_ascii_of_string s.

Arguments lit s%_string.

Definition code (c : ascii) : Z := Z.of_N (N_of_ascii c).

(** The digit characters [mpz_get_str] produces for bases up to 36. *)
Definition digit_char (d : Z) : ascii :=
  nth (Z.to_nat d) (lit "0123456789abcdefghijklmnopqrstuvwxyz") "0"%char.

(** Digits of [n] in [base], least significant first. *)
Fixpoint digits_lsb (fuel : nat) (base n : Z) : list Z :=
  match fuel with
  | O => []
  | S fuel' =>
      if n =? 0 then []
      else (n mod base) :: digits_lsb fuel' base (n / base)
  end.

Definition digits_fuel (n : Z) : nat := S (Z.to_nat (Z.log2 n)).

(** [mpz_get_str(NULL, base, n)]: the digits of [n], most significant
    first, without leading zeros, ["0"] for zero and a leading minus sign
    for a negative number. *)
Definition mpz_get_str (base n : Z) : str :=
  if n =? 0 then ["0"%char]
  else (if n <? 0 then ["-"%char] else [])
         ++ rev (map digit_char (digits_lsb (digits_fuel (Z.abs n)) base (Z.abs n))).

(** Value of a character as a digit; in bases up to 36 case is ignored. *)
Definition digit_value (c : ascii) : option Z :=
  let n := code c in
  if (48 <=? n) && (n <=? 57) then Some (n - 48)
  else if (97 <=? n) && (n <=? 122) then Some (n - 87)
  else if (65 <=? n) && (n <=? 90) then Some (n - 55)
  else None.

Definition isspace (c : ascii) : bool :=
  let n := code c in (n =? 32) || ((9 <=? n) && (n <=? 13)).

Fixpoint skip_space (s : str) : str :=
  match s with
  | c :: s' => if isspace c then skip_space s' else s
  | [] => []
  end.

Fixpoint parse_digits (base acc : Z) (s : str) : option Z :=
  match s with
  | [] => Some acc
  | c :: s' =>
      if isspace c then parse_digits base acc s'
      else match digit_value c with
           | Some d => if d <? base then parse_digits base (acc * base + d) s'
                       else None
           | None => None
           end
  end.

(** [mpz_set_str(rop, s, base)] for [2 <= base <= 36]: leading white space
    is skipped, a minus sign may follow, then at least one digit; white
    space between the digits is ignored.  [None] is the return code -1. *)
Definition mpz_set_str (s : str) (base : Z) : option Z :=
  let s1 := skip_space s in
  let '(neg, s2) := match s1 with
                    | "-"%char :: r => (true, r)
                    | _ => (false, s1)
                    end in
  match s2 with
  | [] => None
  | c :: _ =>
      match digit_value c with
      | Some d =>
          if d <? base
          then option_map (fun v => if neg then - v else v) (parse_digits base 0 s2)
          else None
      | None => None
      end
  end.

(** [mpz_init_set_str]: the value [rop] holds afterwards and the return
    code.  [rop] is initialised (to 0) before the string is read, and is
    left so when the string is not a number. *)
Definition mpz_init_set_str (s : str) (base : Z) : Z * Z :=
  match mpz_set_str s base with
  | Some v => (v, 0)
  | None => (0, -1)
  end.

(** [mpz_import(rop, count, 1, 1, 1, 0, buf)]: [count] bytes, most
    significant first, as an unsigned integer. *)
Definition mpz_import (buf : list Byte.byte) : Z :=
  fold_left (fun acc b => acc * 256 + Z.of_N (Byte.to_N b)) buf 0.

End Gmp.

Import Gmp.

(** ** primefield.h *)

Definition prime_field_add (a b p : Z) : Z :=
  let tmp := a + b in
  if tmp >=? p then tmp - p
  else if tmp <? 0 then tmp + p
  else tmp.

Definition prime_field_sub (a b p : Z) : Z :=
  let tmp := - b in
  prime_field_add a tmp p.

(** The loop of [prime_field_mul], over the characters [bits[bitlength-1]],
    ..., [bits[0]] in the order the loop visits them. *)
Fixpoint prime_field_mul_loop (visited : str) (res copy p : Z) : Z :=
  match visited with
  | [] => res
  | c :: rest =>
      let res := if Ascii.eqb c "1"%char then prime_field_add res copy p else res in
      let copy := prime_field_add copy copy p in
      prime_field_mul_loop rest res copy p
  end.

Definition prime_field_mul (a b p : Z) : Z :=
  let bits := mpz_get_str 2 b in
  prime_field_mul_loop (rev bits) 0 a p.

(** The local variables of [prime_field_div] that live across iterations. *)
Record div_state : Type := mk_div_state {
  ds_s : Z; ds_t : Z; ds_u : Z; ds_v : Z; ds_copy_b : Z; ds_copy_p : Z
}.

(** One iteration of the [while] loop; [mpz_fdiv_qr] is floor division,
    which is what [Z.div] and [Z.modulo] are.  The dividend is [a]. *)
Definition prime_field_div_body (a : Z) (st : div_state) : div_state :=
  let q := a / ds_copy_p st in
  let r := a mod ds_copy_p st in
  let u_new := ds_s st in
  let v_new := ds_t st in
  {| ds_s := ds_u st - q * ds_s st;
     ds_t := ds_v st - q * ds_t st;
     ds_u := u_new;
     ds_v := v_new;
     ds_copy_b := ds_copy_p st;
     ds_copy_p := r |}.

Fixpoint prime_field_div_loop (fuel : nat) (a : Z) (st : div_state) : option div_state :=
  if ds_copy_p st =? 0 then Some st
  else match fuel with
       | O => None
       | S fuel' => prime_field_div_loop fuel' a (prime_field_div_body a st)
       end.

(** A number of iterations that is enough for the loop to end
    (see [prime_field_div_loop_ends]): [|copy_p|] decreases at each
    iteration, and it reaches 0 in two when [a] is a field element. *)
Definition prime_field_div_fuel (a p : Z) : nat :=
  if (0 <=? a) && (a <? p) then 2%nat else Z.to_nat (Z.abs p).

Definition prime_field_div_init (b p : Z) : div_state :=
  {| ds_s := 1; ds_t := 0; ds_u := 0; ds_v := 1; ds_copy_b := b; ds_copy_p := p |}.

(** A call of [prime_field_div]: what it leaves in [res], or [Undefined]
    if its loop did not end. *)
Definition prime_field_div_run (a b p : Z) : outcome Z :=
  match prime_field_div_loop (prime_field_div_fuel a p) a (prime_field_div_init b p) with
  | Some st => Returned (prime_field_mul a (ds_u st) p)
  | None => Undefined
  end.

Definition prime_field_div (a b p : Z) : Z :=
  match prime_field_div_run a b p with
  | Returned res => res
  | _ => 0
  end.

(** The loop of [prime_field_sq] over [bits[1]], [bits[0]] of ["10"]. *)
Fixpoint prime_field_sq_loop (visited : str) (res copy p : Z) : Z :=
  match visited with
  | [] => res
  | c :: rest =>
      let res := if Ascii.eqb c "1"%char then prime_field_mul res copy p else res in
      let copy := prime_field_mul copy copy p in
      prime_field_sq_loop rest res copy p
  end.

Definition prime_field_sq (a p : Z) : Z :=
  let bits := lit "10" in
  prime_field_sq_loop (rev bits) 1 a p.

(** [str_to_scalar]: the scalar and the return code of [mpz_init_set_str]. *)
Definition str_to_scalar (s : str) : Z * Z := mpz_init_set_str s 16.

(** [scalar_to_str]: the string and [*len]. *)
Definition scalar_to_str (scalar : Z) : str * nat :=
  let s := mpz_get_str 16 scalar in
  (s, List.length s).

(** ** ecdh.h *)

Record Point : Type := mkPoint { x : Z; y : Z }.

Record Curve : Type := mkCurve {
  prime : Z;
  a : Z;
  b : Z;
  G : Point;
  order : Z;
  cofactor : Z;
  key_size_bits : Z
}.

Inductive Curves : Type := SECP_192_K1 | SECP_192_R1.

Record KeyPair : Type := mkKeyPair {
  private : Z;
  public : str;
  ec : Curve
}.

(** ** ecdh.c: points *)

Definition create_point : Point := {| x := 0; y := 0 |}.

Definition copy_point (point : Point) : Point :=
  let copy := create_point in
  {| x := x point; y := y point |}.

Definition point_add (p q : Point) (ec : Curve) : Point :=
  if (x p =? 0) && (y p =? 0) then copy_point q
  else if (x q =? 0) && (y q =? 0) then copy_point p
  else
    let r := create_point in
    if x p =? x q then r
    else
      let x_delta := prime_field_sub (x p) (x q) (prime ec) in
      let y_delta := prime_field_sub (y p) (y q) (prime ec) in
      let s := prime_field_div y_delta x_delta (prime ec) in
      let tmp1 := prime_field_sq s (prime ec) in
      let tmp2 := prime_field_add (x p) (x q) (prime ec) in
      let r_x := prime_field_sub tmp1 tmp2 (prime ec) in
      let tmp1 := prime_field_sub (x p) r_x (prime ec) in
      let tmp2 := prime_field_mul s tmp1 (prime ec) in
      let r_y := prime_field_sub tmp2 (y p) (prime ec) in
      {| x := r_x; y := r_y |}.

Definition point_double (p : Point) (ec : Curve) : Point :=
  let px_sq := prime_field_sq (x p) (prime ec) in
  let three := 3 in
  let tmp1 := prime_field_mul px_sq three (prime ec) in
  let sum := prime_field_add tmp1 (a ec) (prime ec) in
  let two := 2 in
  let px_2 := prime_field_mul (x p) two (prime ec) in
  let py_2 := prime_field_mul (y p) two (prime ec) in
  let s := prime_field_div sum py_2 (prime ec) in
  let s_sq := prime_field_sq s (prime ec) in
  let r_x := prime_field_sub s_sq px_2 (prime ec) in
  let tmp1 := prime_field_sub (x p) r_x (prime ec) in
  let tmp2 := prime_field_mul s tmp1 (prime ec) in
  let r_y := prime_field_sub tmp2 (y p) (prime ec) in
  {| x := r_x; y := r_y |}.

(** The loop of [scalar_mult], over [val_str[len-1]], ..., [val_str[0]]. *)
Fixpoint scalar_mult_loop (visited : str) (res p_copy : Point) (ec : Curve) : Point :=
  match visited with
  | [] => res
  | c :: rest =>
      let res := if Ascii.eqb c "1"%char then point_add p_copy res ec else res in
      let p_copy := point_double p_copy ec in
      scalar_mult_loop rest res p_copy ec
  end.

Definition scalar_mult (p : Point) (k : Z) (ec : Curve) : Point :=
  let res := create_point in
  let p_copy := copy_point p in
  let val_str := mpz_get_str 2 k in
  scalar_mult_loop (rev val_str) res p_copy ec.

(** ** ecdh.c: point strings *)

Definition NUL : ascii := Ascii.zero.

(** [str[i]] of a C string: the character, or the terminator at its end. *)
Definition char_at (s : str) (i : nat) : ascii := nth i s NUL.

(** [str_to_point].  [str_end_idx] is [len / 2 - 1]; when it is negative
    the stores [x[str_end_idx] = '\0'] are out of bounds. *)
Definition str_to_point (s : str) : outcome Point :=
  let len := List.length s in
  let str_end_idx := Z.of_nat (len / 2) - 1 in
  if str_end_idx <? 0 then Undefined
  else
    let idx := seq 0 (Z.to_nat str_end_idx) in
    let xs := map (fun i => char_at s (i + 2)) idx in
    let ys := map (fun i => char_at s (i + 1 + len / 2)) idx in
    Returned {| x := fst (str_to_scalar xs); y := fst (str_to_scalar ys) |}.

(** A [calloc]ed buffer, a store [buf[i] = c] and [strncpy(&buf[off], src, n)]. *)
Definition calloc (n : nat) : str := repeat NUL n.

Definition store (buf : str) (i : nat) (c : ascii) : str :=
  firstn i buf ++ c :: skipn (S i) buf.

Definition strncpy (buf : str) (off : nat) (src : str) (n : nat) : str :=
  let data := firstn n (src ++ repeat NUL n) in
  firstn off buf ++ data ++ skipn (off + n) buf.

(** The C string a buffer holds: its characters before the first NUL. *)
Fixpoint c_string (buf : str) : str :=
  match buf with
  | [] => []
  | c :: rest => if Ascii.eqb c NUL then [] else c :: c_string rest
  end.

(** [for (i = from; i < from + count; i++) buf[i] = '0';] *)
Definition fill_zeros (buf : str) (from count : nat) : str :=
  fold_left (fun buf i => store buf i "0"%char) (seq from count) buf.

(** [point_to_str]: the string and [*len]. *)
Definition point_to_str (point : Point) : str * nat :=
  let x_off := 2%nat in
  let y_off := 0%nat in
  let '(xs, x_len) := scalar_to_str (x point) in
  let '(ys, y_len) := scalar_to_str (y point) in
  let '(res, x_off, y_off) :=
    if (x_len <? y_len)%nat then
      let diff := (y_len - x_len)%nat in
      let res := calloc (3 + x_len + y_len + diff) in
      (fill_zeros res 2 diff, (x_off + diff)%nat, y_off)
    else if (y_len <? x_len)%nat then
      let diff := (x_len - y_len)%nat in
      let res := calloc (3 + x_len + y_len + diff) in
      (fill_zeros res (x_len + 2) diff, x_off, diff)
    else
      (calloc (3 + x_len + y_len), x_off, y_off) in
  let res := store res 0 "0"%char in
  let res := store res 1 "4"%char in
  let res := strncpy res x_off xs x_len in
  let res := strncpy res (x_off + y_off + x_len) ys y_len in
  (c_string res, List.length (c_string res)).

(** ** ecdh.c: curves *)

Definition get_secp192k1_curve : Curve :=
  {| prime := fst (str_to_scalar (lit "fffffffffffffffffffffffffffffffffffffffeffffee37"));
     a := 0;
     b := 3;
     G := match str_to_point (lit "04db4ff10ec057e9ae26b07d0280b7f4341da5d1b1eae06c7d9b2f2f6d9c5628a7844163d015be86344082aa88d95e2f9d") with
          | Returned g => g
          | _ => create_point
          end;
     order := fst (str_to_scalar (lit "fffffffffffffffffffffffe26f2fc170f69466a74defd8d"));
     cofactor := 1;
     key_size_bits := 160 |}.

Definition get_secp192r1_curve : Curve :=
  {| prime := fst (str_to_scalar (lit "FFFFFFFFFFFFFFFFFFFFFFFFFFFFFFFEFFFFFFFFFFFFFFFF"));
     a := fst (mpz_init_set_str (lit "FFFFFFFFFFFFFFFFFFFFFFFFFFFFFFFEFFFFFFFFFFFFFFFC") 16);
     b := fst (mpz_init_set_str (lit "64210519E59C80E70FA7E9AB72243049FEB8DEECC146B9B1") 16);
     G := match str_to_point (lit "04188DA80EB03090F67CBF20EB43A18800F4FF0AFD82FF101207192B95FFC8DA78631011ED6B24CDD573F977A11E794811") with
          | Returned g => g
          | _ => create_point
          end;
     order := fst (str_to_scalar (lit "FFFFFFFFFFFFFFFFFFFFFFFF99DEF836146BC9B1B4D22831"));
     cofactor := 1;
     key_size_bits := 160 |}.

(** ** ecdh.c: key pairs *)

(** The [switch] of [gen_key_pair]. *)
Definition curve_of (curve : Curves) : Curve :=
  match curve with
  | SECP_192_R1 => get_secp192r1_curve
  | SECP_192_K1 => get_secp192k1_curve
  end.

(** [buf] after [calloc(1 + bytes)] and [fread(buf, 1, bytes, fp)], where
    [urandom] is what the read of /dev/urandom delivers: the bytes read,
    then the zeros of [calloc]. *)
Definition fread (urandom : list Byte.byte) (bytes : nat) : list Byte.byte :=
  firstn bytes (urandom ++ repeat Byte.x00 bytes).

(** [gen_key_pair] from the point where [ec] is chosen. *)
Definition gen_key_pair_on (ec : Curve) (urandom : list Byte.byte) : KeyPair :=
  let bytes := Z.to_nat (key_size_bits ec / 8) in
  let buf := fread urandom bytes in
  let private := mpz_import buf in
  let public_key := scalar_mult (G ec) private ec in
  {| private := private; public := fst (point_to_str public_key); ec := ec |}.

Definition gen_key_pair (curve : Curves) (urandom : list Byte.byte) : KeyPair :=
  gen_key_pair_on (curve_of curve) urandom.

(** [get_secret]: the string ([*len] is its length). *)
Definition get_secret (key_pair : KeyPair) (peer : str) : outcome str :=
  bind (str_to_point peer) (fun peer_point =>
    let res_point := scalar_mult peer_point (private key_pair) (ec key_pair) in
    Returned (fst (point_to_str res_point))).

(** ** ecdh.c: main *)

(** How a run of [main] ends: it returns [status] having printed [out], an
    [assert] fails, or a call it made had no result. *)
Inductive run : Type :=
| Exit (status : Z) (out : str)
| AssertionFailed (out : str)
| NoResult.

Definition str_eqb (s1 s2 : str) : bool :=
  if list_eq_dec ascii_dec s1 s2 then true else false.

(** [strncmp(s1, s2, n) == 0] on C strings. *)
Definition strncmp_equal (s1 s2 : str) (n : nat) : bool :=
  str_eqb (firstn n s1) (firstn n s2).

(** [argc == 2 && strncmp(argv[1], "-v", 2) == 0] *)
Definition verbose (argv : list str) : bool :=
  (List.length argv =? 2)%nat && strncmp_equal (nth 1 argv []) (lit "-v") 2.

(** [printf(format, arg)] for a format that is [before], [%s] and a newline. *)
Definition printf_s (before arg : str) : str := before ++ arg ++ ["010"%char].

(** The [for] loop of assertions over [alice_secret[i] == bob_secret[i]]. *)
Definition secrets_match (alice_secret bob_secret : str) (len : nat) : bool :=
  forallb (fun i => Ascii.eqb (char_at alice_secret i) (char_at bob_secret i)) (seq 0 len).

(** [main]; [argv] has [argc] entries, and the two key generations read
    [urandom_alice] and [urandom_bob] from /dev/urandom. *)
Definition main (argv : list str) (urandom_alice urandom_bob : list Byte.byte) : run :=
  let alice := gen_key_pair SECP_192_K1 urandom_alice in
  let bob := gen_key_pair SECP_192_K1 urandom_bob in
  let out :=
    if verbose argv then
      let alice_private := fst (scalar_to_str (private alice)) in
      let bob_private := fst (scalar_to_str (private bob)) in
      printf_s (lit "Alice's private key is ") alice_private
      ++ printf_s (lit "Alice's public key is  ") (public alice)
      ++ printf_s (lit "-------") []
      ++ printf_s (lit "Bob's private key is   ") bob_private
      ++ printf_s (lit "Bob's public key is    ") (public bob)
      ++ printf_s (lit "-------") []
    else [] in
  match get_secret alice (public bob), get_secret bob (public alice) with
  | Returned alice_secret, Returned bob_secret =>
      let alice_secret_len := List.length alice_secret in
      let bob_secret_len := List.length bob_secret in
      if negb (alice_secret_len =? bob_secret_len)%nat then AssertionFailed out
      else if negb (secrets_match alice_secret bob_secret alice_secret_len)
           then AssertionFailed out
      else
        let out :=
          if verbose argv then
            out ++ printf_s (lit "Alice's secret is ") alice_secret
                ++ printf_s (lit "Bob's secret is   ") bob_secret
          else out in
        Exit 0 out
  | _, _ => NoResult
  end.

(** * Definitions for the statements

    What the theorems below are stated with: ranges, the formulas of the
    specification, the references the code is compared with, and the
    checkers of the primality certificates. *)

(** Membership to the field [0, p). *)
Definition in_field (p n : Z) : Prop := 0 <= n < p.

(** Value of a list of digits, least significant first. *)
Fixpoint value_lsb (base : Z) (ds : list Z) : Z :=
  match ds with
  | [] => 0
  | d :: ds' => d + base * value_lsb base ds'
  end.

(** The digits [mpz_get_str] writes for a positive number. *)
Definition digits_of (base n : Z) : list Z := digits_lsb (digits_fuel n) base n.

Definition congr (n u v : Z) : Prop := u mod n = v mod n.

Definition field_point (p : Z) (P : Point) : Prop := in_field p (x P) /\ in_field p (y P).

Definition is_identity (P : Point) : bool := (x P =? 0) && (y P =? 0).

(** The slopes the two formulas ask [prime_field_div] for. *)
Definition chord_slope (P Q : Point) (ec : Curve) : Z :=
  prime_field_div ((y P - y Q) mod prime ec) ((x P - x Q) mod prime ec) (prime ec).

Definition tangent_slope (P : Point) (ec : Curve) : Z :=
  prime_field_div ((3 * (x P * x P) + a ec) mod prime ec) ((2 * y P) mod prime ec) (prime ec).

(** The point the chord and tangent formulas give for a slope [s]. *)
Definition slope_point (s : Z) (P : Point) (x2 : Z) (p : Z) : Point :=
  let r_x := (s * s - x P - x2) mod p in
  {| x := r_x; y := (s * (x P - r_x) - y P) mod p |}.

Definition coef : Type := (Z * Z)%type.

(** The point [(c1 * x, c2 * y)], reduced. *)
Definition scale (c : coef) (P : Point) (p : Z) : Point :=
  {| x := (fst c * x P) mod p; y := (snd c * y P) mod p |}.

Definition scale_opt (r : option coef) (P : Point) (p : Z) : Point :=
  match r with
  | None => create_point
  | Some c => scale c P p
  end.

(** [scalar_mult_loop] on the coefficients of the points instead of the
    points; [None] is the point (0,0) the loop starts from. *)
Fixpoint coef_loop (visited : str) (res : option coef) (pc : coef) : option coef :=
  match visited with
  | [] => res
  | c :: rest =>
      let res := if Ascii.eqb c "1"%char
                 then match res with
                      | None => Some pc
                      | Some r => Some (- (fst pc + fst r), - snd pc)
                      end
                 else res in
      coef_loop rest res (-2 * fst pc, - snd pc)
  end.

Definition coef_of (k : Z) : option coef := coef_loop (rev (mpz_get_str 2 k)) None (1, 1).

Definition coef_ok (res : option coef) (pc : coef) : Prop :=
  0 < Z.abs (fst pc) /\ Z.abs (snd pc) = 1 /\
  match res with
  | None => True
  | Some r => 0 < Z.abs (fst r) < Z.abs (fst pc) /\ Z.abs (snd r) = 1
  end.

(** The digits of the string [mpz_get_str] writes for [n >= 0], most
    significant first. *)
Definition msb_digits (base n : Z) : list Z :=
  if n =? 0 then [0] else rev (digits_of base n).

(** Value of a list of digits, most significant first, after [acc]. *)
Definition value_msb (base acc : Z) (ds : list Z) : Z :=
  fold_left (fun v d => v * base + d) ds acc.

(** The string the specification describes: the tag, then the two
    hexadecimal fields padded with zeros on the left to the same width. *)
Definition sec1_uncompressed (P : Point) : str :=
  let xs := mpz_get_str 16 (x P) in
  let ys := mpz_get_str 16 (y P) in
  let width := Nat.max (List.length xs) (List.length ys) in
  lit "04" ++ (repeat "0"%char (width - List.length xs) ++ xs)
           ++ (repeat "0"%char (width - List.length ys) ++ ys).

(** A scalar the key generation can draw. *)
Definition key_scalar (ec : Curve) (k : Z) : Prop := 0 <= k < 2 ^ key_size_bits ec.

(** A point the program multiplies: (0,0) or a field point off the y axis. *)
Definition mult_point (ec : Curve) (P : Point) : Prop :=
  P = create_point \/ (field_point (prime ec) P /\ x P <> 0).

(** [d], [d+1], ... do not divide [n], up to the square root of [n]. *)
Fixpoint no_divisor (fuel : nat) (d n : Z) : bool :=
  match fuel with
  | O => false
  | S fuel' =>
      if n <? d * d then true
      else if n mod d =? 0 then false
      else no_divisor fuel' (d + 1) n
  end.

Definition trial_division (n : Z) : bool :=
  (1 <? n) && no_divisor (Z.to_nat (Z.sqrt n)) 2 n.

Definition product (qs : list Z) : Z := fold_right Z.mul 1 qs.

(** Pocklington's criterion for the prime factors [q] of [n - 1] listed in
    [cert], each with its witness [w]. *)
Fixpoint pocklington (n : Z) (cert : list (Z * Z)) : bool :=
  match cert with
  | [] => true
  | (q, w) :: rest =>
      ((n - 1) mod q =? 0)
      && (Zpow_mod w (n - 1) n =? 1)
      && (Z.gcd (Zpow_mod w ((n - 1) / q) n - 1) n =? 1)
      && (Z.gcd q (product (map fst rest)) =? 1)
      && pocklington n rest
  end.

Definition pocklington_certificate (n : Z) (cert : list (Z * Z)) : bool :=
  let F := product (map fst cert) in
  (1 <? n) && pocklington n cert && (0 <? F) && (n <? (F + 1) * (F + 1)).

(** What [key_agreement_on] asks of a curve, but for primality. *)
Definition curve_checks (ec : Curve) : bool :=
  (0 <=? a ec) && (a ec <? prime ec)
  && (0 <=? x (G ec)) && (x (G ec) <? prime ec)
  && (0 <=? y (G ec)) && (y (G ec) <? prime ec)
  && negb (x (G ec) =? 0)
  && (0 <=? key_size_bits ec)
  && (2 ^ (key_size_bits ec + 1) <=? prime ec).

(** A small curve, y^2 = x^3 + 1 over the field of 7 elements; (2,3) has
    order 6 on it and (6,0) order 2. *)
Definition small_curve : Curve :=
  {| prime := 7; a := 0; b := 1; G := {| x := 2; y := 3 |};
     order := 6; cofactor := 2; key_size_bits := 8 |}.

(** [P] satisfies the equation of the curve. *)
Definition on_curve (P : Point) (ec : Curve) : bool :=
  (y P * y P - (x P * x P * x P + a ec * x P + b ec)) mod prime ec =? 0.

(** The opposite of a point, in the specification's words: (Px, -Py mod p). *)
Definition point_neg (P : Point) (ec : Curve) : Point :=
  {| x := x P; y := (- y P) mod prime ec |}.

(** The naive reference of the specification: [k - 1] applications of
    [point_add], starting from [P]. *)
Fixpoint repeated_point_add (n : nat) (acc P : Point) (ec : Curve) : Point :=
  match n with
  | O => acc
  | S n' => repeated_point_add n' (point_add acc P ec) P ec
  end.

Definition naive_scalar_mult (P : Point) (k : Z) (ec : Curve) : Point :=
  repeated_point_add (Z.to_nat (k - 1)) P P ec.

(** Double-and-add in the specification's words: an accumulator that starts
    at the identity and a running copy of [P]; for each bit of [k] from the
    least significant one, the running copy is added into the accumulator if
    the bit is set, then doubled. *)
Fixpoint double_and_add (nbits : nat) (i k : Z) (acc running : Point) (ec : Curve) : Point :=
  match nbits with
  | O => acc
  | S nbits' =>
      let acc := if Z.testbit k i then point_add running acc ec else acc in
      double_and_add nbits' (i + 1) k acc (point_double running ec) ec
  end.

Definition scalar_mult_ref (P : Point) (k : Z) (ec : Curve) : Point :=
  double_and_add (S (Z.to_nat (Z.log2 k))) 0 k create_point P ec.

(** * Prime-field arithmetic *)

Section PrimeField.

Variable p : Z.
Hypothesis p_gt_1 : 1 < p.

Lemma prime_field_add_mod (n m : Z) :
  in_field p n -> in_field p m -> prime_field_add n m p = (n + m) mod p.
Proof.
  unfold in_field, prime_field_add; intros Hn Hm; cbv zeta.
  destruct (Z.geb_spec (n + m) p) as [Hge | Hlt].
  - apply Z.mod_unique with 1; lia.
  - destruct (Z.ltb_spec (n + m) 0); [lia |].
    symmetry; apply Z.mod_small; lia.
Qed.

Lemma prime_field_sub_mod (n m : Z) :
  in_field p n -> in_field p m -> prime_field_sub n m p = (n - m) mod p.
Proof.
  unfold in_field, prime_field_sub, prime_field_add; intros Hn Hm; cbv zeta.
  destruct (Z.geb_spec (n + - m) p) as [Hge | Hlt]; [lia |].
  destruct (Z.ltb_spec (n + - m) 0).
  - apply Z.mod_unique with (-1); lia.
  - symmetry; apply Z.mod_small; lia.
Qed.

Lemma mod_in_field (n : Z) : in_field p (n mod p).
Proof. unfold in_field; apply Z.mod_pos_bound; lia. Qed.

Lemma prime_field_add_in_field (n m : Z) :
  in_field p n -> in_field p m -> in_field p (prime_field_add n m p).
Proof. intros; rewrite prime_field_add_mod by assumption; apply mod_in_field. Qed.

Lemma prime_field_sub_in_field (n m : Z) :
  in_field p n -> in_field p m -> in_field p (prime_field_sub n m p).
Proof. intros; rewrite prime_field_sub_mod by assumption; apply mod_in_field. Qed.

End PrimeField.

(** ** Digits *)

Lemma digits_lsb_value (base : Z) (fuel : nat) (n : Z) :
  2 <= base -> 0 <= n < 2 ^ Z.of_nat fuel ->
  value_lsb base (digits_lsb fuel base n) = n.
Proof.
  intros Hb; revert n; induction fuel as [| fuel IH]; intros n Hn.
  - simpl in *; lia.
  - cbn [digits_lsb]. destruct (Z.eqb_spec n 0) as [-> | Hnz]; [reflexivity |].
    cbn [value_lsb]. rewrite IH.
    + pose proof (Z.div_mod n base); lia.
    + rewrite Nat2Z.inj_succ, Z.pow_succ_r in Hn by lia.
      split; [apply Z.div_pos; lia |].
      apply Z.div_lt_upper_bound; [lia |].
      assert (0 < 2 ^ Z.of_nat fuel) by (apply Z.pow_pos_nonneg; lia). nia.
Qed.

Lemma digits_lsb_range (base : Z) (fuel : nat) (n : Z) :
  2 <= base -> Forall (fun d => 0 <= d < base) (digits_lsb fuel base n).
Proof.
  intros Hb; revert n; induction fuel as [| fuel IH]; intros n; cbn [digits_lsb].
  - constructor.
  - destruct (n =? 0); constructor; [apply Z.mod_pos_bound; lia | apply IH].
Qed.

Lemma digits_lsb_nonempty (base : Z) (fuel : nat) (n : Z) :
  n <> 0 -> digits_lsb (S fuel) base n <> [].
Proof.
  intros Hn; cbn [digits_lsb]. destruct (Z.eqb_spec n 0); [contradiction | discriminate].
Qed.

Lemma digits_fuel_enough (n : Z) : 0 <= n -> n < 2 ^ Z.of_nat (digits_fuel n).
Proof.
  intros Hn. unfold digits_fuel.
  destruct (Z.eq_dec n 0) as [-> | Hnz]; [reflexivity |].
  rewrite Nat2Z.inj_succ, Z2Nat.id by apply Z.log2_nonneg.
  apply Z.log2_spec; lia.
Qed.

Lemma digits_of_value (base n : Z) : 2 <= base -> 0 <= n -> value_lsb base (digits_of base n) = n.
Proof.
  intros; apply digits_lsb_value; [assumption |].
  split; [assumption | apply digits_fuel_enough; assumption].
Qed.

Lemma rev_mpz_get_str (base n : Z) :
  rev (mpz_get_str base n) =
    if n =? 0 then ["0"%char]
    else map digit_char (digits_of base (Z.abs n)) ++ (if n <? 0 then ["-"%char] else []).
Proof.
  unfold mpz_get_str, digits_of. destruct (n =? 0); [reflexivity |].
  rewrite rev_app_distr, rev_involutive. destruct (n <? 0); reflexivity.
Qed.

Lemma digit_char_is_one (d : Z) :
  0 <= d < 2 -> Ascii.eqb (digit_char d) "1"%char = (d =? 1).
Proof.
  intros Hd. assert (d = 0 \/ d = 1) as [-> | ->] by lia; reflexivity.
Qed.

Section PrimeFieldMul.

Variable p : Z.
Hypothesis p_gt_1 : 1 < p.

Lemma mod_add_mul_idemp (u w v : Z) : (u mod p + (w mod p) * v) mod p = (u + w * v) mod p.
Proof.
  rewrite Z.add_mod_idemp_l by lia.
  rewrite <- Z.add_mod_idemp_r by lia.
  rewrite Z.mul_mod_idemp_l by lia.
  rewrite Z.add_mod_idemp_r by lia. reflexivity.
Qed.

(** The loop adds [copy] times the number whose binary digits it visits;
    a sign character at the end of the visit changes nothing. *)
Lemma prime_field_mul_loop_value (sign : str) (ds : list Z) :
  (forall r c, prime_field_mul_loop sign r c p = r) ->
  Forall (fun d => 0 <= d < 2) ds ->
  forall res copy, in_field p res -> in_field p copy ->
    prime_field_mul_loop (map digit_char ds ++ sign) res copy p
    = (res + copy * value_lsb 2 ds) mod p.
Proof.
  intros Hsign Hds; induction Hds as [| d ds Hd Hds IH]; intros res copy Hres Hcopy.
  - cbn [map app value_lsb]. rewrite Hsign, Z.mul_0_r, Z.add_0_r.
    symmetry; apply Z.mod_small; exact Hres.
  - cbn [map app prime_field_mul_loop value_lsb]. rewrite digit_char_is_one by exact Hd.
    rewrite prime_field_add_mod with (n := copy) (m := copy) by assumption.
    destruct (Z.eqb_spec d 1) as [-> | Hd1].
    + rewrite IH by (try apply prime_field_add_in_field; try apply mod_in_field; assumption).
      rewrite prime_field_add_mod by assumption.
      rewrite mod_add_mul_idemp. f_equal; ring.
    + assert (d = 0) as -> by lia.
      rewrite IH by (try apply mod_in_field; assumption).
      rewrite <- (Z.mod_small res p) at 1 by exact Hres.
      rewrite mod_add_mul_idemp. f_equal; ring.
Qed.

Theorem prime_field_mul_mod (n m : Z) :
  in_field p n -> prime_field_mul n m p = (n * Z.abs m) mod p.
Proof.
  intros Hn. unfold prime_field_mul; cbv zeta. rewrite rev_mpz_get_str.
  destruct (Z.eqb_spec m 0) as [-> | Hm].
  - cbn. rewrite Z.mul_0_r. reflexivity.
  - rewrite prime_field_mul_loop_value.
    + rewrite digits_of_value by lia. f_equal; ring.
    + intros r c. destruct (m <? 0); reflexivity.
    + apply digits_lsb_range; lia.
    + unfold in_field; lia.
    + exact Hn.
Qed.

Lemma prime_field_mul_in_field (n m : Z) :
  in_field p n -> in_field p (prime_field_mul n m p).
Proof. intros; rewrite prime_field_mul_mod by assumption; apply mod_in_field; assumption. Qed.

Theorem prime_field_sq_mod (n : Z) :
  in_field p n -> prime_field_sq n p = (n * n) mod p.
Proof.
  intros Hn. unfold prime_field_sq; cbn.
  rewrite !prime_field_mul_mod; try assumption; try (unfold in_field; lia).
  rewrite (Z.abs_eq n) by (unfold in_field in Hn; lia).
  rewrite Z.abs_eq by (apply Z.mod_pos_bound; lia).
  rewrite Z.mul_1_l. apply Z.mod_mod; lia.
Qed.

Lemma prime_field_sq_in_field (n : Z) :
  in_field p n -> in_field p (prime_field_sq n p).
Proof. intros; rewrite prime_field_sq_mod by assumption; apply mod_in_field; assumption. Qed.

End PrimeFieldMul.

(** ** Division *)

Lemma prime_field_div_loop_fuel (n : Z) (fuel : nat) :
  forall st, Z.abs (ds_copy_p st) <= Z.of_nat fuel ->
  exists st', prime_field_div_loop fuel n st = Some st' /\ ds_copy_p st' = 0.
Proof.
  induction fuel as [| fuel IH]; intros st Hst.
  - cbn [prime_field_div_loop].
    destruct (Z.eqb_spec (ds_copy_p st) 0) as [Hz | Hnz]; [eauto | lia].
  - cbn [prime_field_div_loop].
    destruct (Z.eqb_spec (ds_copy_p st) 0) as [Hz | Hnz]; [eauto |].
    apply IH. cbn [prime_field_div_body ds_copy_p].
    pose proof (Z.mod_pos_bound n (ds_copy_p st)).
    pose proof (Z.mod_neg_bound n (ds_copy_p st)). lia.
Qed.

(** What the loop leaves in [u] when the dividend is a field element: the
    first iteration has quotient 0 and remainder [n], the second, if any,
    quotient 1 and remainder 0. *)
Lemma prime_field_div_loop_in_field (n m p : Z) :
  0 <= n < p ->
  exists st, prime_field_div_loop 2 n (prime_field_div_init m p) = Some st
             /\ ds_copy_p st = 0
             /\ ds_u st = if n =? 0 then 1 else 0.
Proof.
  intros Hn. unfold prime_field_div_init.
  cbn [prime_field_div_loop prime_field_div_body ds_copy_p ds_s ds_t ds_u ds_v].
  destruct (Z.eqb_spec p 0) as [Hp | _]; [lia |].
  rewrite (Z.mod_small n p) by lia.
  destruct (Z.eqb_spec n 0) as [-> | Hnz].
  - eexists; repeat split.
  - rewrite Z.mod_same by lia. cbn [Z.eqb]. eexists; repeat split;
      unfold prime_field_div_body; cbn [ds_copy_p ds_s ds_t ds_u ds_v];
      rewrite ?(Z.mod_small n p), ?(Z.div_small n p), ?Z.mod_same by lia; lia.
Qed.

(** The [while] loop of [prime_field_div] ends on every input. *)
Theorem prime_field_div_loop_ends (n m p : Z) :
  exists st,
    prime_field_div_loop (prime_field_div_fuel n p) n (prime_field_div_init m p) = Some st
    /\ ds_copy_p st = 0.
Proof.
  unfold prime_field_div_fuel.
  destruct ((0 <=? n) && (n <? p)) eqn:Hfield.
  - apply andb_true_iff in Hfield as [H0 Hp%Z.ltb_lt]. apply Z.leb_le in H0.
    destruct (prime_field_div_loop_in_field n m p) as (st & Hst & Hz & _); eauto.
  - apply prime_field_div_loop_fuel. cbn [prime_field_div_init ds_copy_p]. lia.
Qed.

(** On a field element [n] the quotient is 0 whatever the divisor [m] is:
    the loop divides [n], not [copy_b], and [m] is never read. *)
Lemma prime_field_div_in_field_zero (n m p : Z) :
  1 < p -> in_field p n -> prime_field_div n m p = 0.
Proof.
  intros Hp Hn. unfold prime_field_div, prime_field_div_run, prime_field_div_fuel.
  unfold in_field in Hn.
  replace ((0 <=? n) && (n <? p)) with true
    by (symmetry; apply andb_true_iff; split; [apply Z.leb_le | apply Z.ltb_lt]; lia).
  destruct (prime_field_div_loop_in_field n m p Hn) as (st & -> & _ & ->).
  rewrite prime_field_mul_mod by (unfold in_field; lia).
  destruct (Z.eqb_spec n 0) as [-> | _]; cbn [Z.abs].
  - reflexivity.
  - rewrite Z.mul_0_r. reflexivity.
Qed.

Lemma prime_field_div_in_field (n m p : Z) :
  1 < p -> in_field p n -> in_field p (prime_field_div n m p).
Proof.
  intros Hp Hn. rewrite prime_field_div_in_field_zero by assumption.
  unfold in_field; lia.
Qed.

(** ** Congruence modulo [n], for rewriting under the field operations *)

#[global] Instance congr_equiv (n : Z) : Equivalence (congr n).
Proof. split; unfold congr; congruence. Qed.

#[global] Instance congr_add (n : Z) : Proper (congr n ==> congr n ==> congr n) Z.add.
Proof. exact (Zplus_eqm n). Qed.

#[global] Instance congr_sub (n : Z) : Proper (congr n ==> congr n ==> congr n) Z.sub.
Proof. exact (Zminus_eqm n). Qed.

#[global] Instance congr_mul (n : Z) : Proper (congr n ==> congr n ==> congr n) Z.mul.
Proof. exact (Zmult_eqm n). Qed.

#[global] Instance congr_opp (n : Z) : Proper (congr n ==> congr n) Z.opp.
Proof. exact (Zopp_eqm n). Qed.

Lemma congr_mod (n v : Z) : congr n (v mod n) v.
Proof. apply Zmod_mod. Qed.

(** Proves [A mod n = B mod n] when [A] and [B] are equal as polynomials
    once the reductions inside them are dropped. *)
Ltac mod_ring :=
  match goal with
  | |- ?A mod ?n = ?B mod ?n =>
      change (congr n A B); rewrite ?congr_mod; unfold congr; f_equal; ring
  end.

Create HintDb field discriminated.

#[global] Hint Resolve mod_in_field prime_field_add_in_field prime_field_sub_in_field
  prime_field_mul_in_field prime_field_sq_in_field prime_field_div_in_field : field.

(** Rewrites the field operations on field elements into integer arithmetic
    modulo [p]. *)
Ltac field_ops :=
  repeat first
    [ rewrite prime_field_sq_mod by auto with field
    | rewrite prime_field_mul_mod by auto with field
    | rewrite prime_field_add_mod by auto with field
    | rewrite prime_field_sub_mod by auto with field ].

(** * Point arithmetic *)

Section PointFormulas.

Variable ec : Curve.
Hypothesis prime_gt_1 : 1 < prime ec.
Hypothesis a_in_field : in_field (prime ec) (a ec).

Lemma abs_mod (n : Z) : Z.abs (n mod prime ec) = n mod prime ec.
Proof. apply Z.abs_eq, Z.mod_pos_bound; lia. Qed.

Lemma chord_slope_in_field (P Q : Point) : in_field (prime ec) (chord_slope P Q ec).
Proof. unfold chord_slope; auto with field. Qed.

Lemma tangent_slope_in_field (P : Point) : in_field (prime ec) (tangent_slope P ec).
Proof. unfold tangent_slope; auto with field. Qed.

(** [point_double] applies the tangent formula to every point, with the
    slope [prime_field_div] returns. *)
Lemma point_double_formula (P : Point) :
  field_point (prime ec) P ->
  point_double P ec = slope_point (tangent_slope P ec) P (x P) (prime ec).
Proof.
  intros [Hx Hy]. unfold point_double; cbv zeta.
  assert (Hsum : prime_field_add (prime_field_mul (prime_field_sq (x P) (prime ec)) 3 (prime ec))
                   (a ec) (prime ec) = (3 * (x P * x P) + a ec) mod prime ec).
  { field_ops. cbn [Z.abs]. mod_ring. }
  assert (Hpy2 : prime_field_mul (y P) 2 (prime ec) = (2 * y P) mod prime ec).
  { field_ops. cbn [Z.abs]. f_equal; ring. }
  rewrite Hsum, Hpy2. fold (tangent_slope P ec).
  pose proof (tangent_slope_in_field P) as Hs.
  generalize dependent (tangent_slope P ec); intros s Hs.
  unfold slope_point; cbv zeta.
  assert (Hrx : prime_field_sub (prime_field_sq s (prime ec))
                  (prime_field_mul (x P) 2 (prime ec)) (prime ec)
                = (s * s - x P - x P) mod prime ec).
  { field_ops. cbn [Z.abs]. mod_ring. }
  rewrite Hrx. f_equal.
  field_ops. rewrite abs_mod. mod_ring.
Qed.

(** [point_add] on two points that are not (0,0) and differ in [x]
    applies the chord formula with the slope [prime_field_div] returns. *)
Lemma point_add_formula (P Q : Point) :
  field_point (prime ec) P -> field_point (prime ec) Q ->
  is_identity P = false -> is_identity Q = false -> x P <> x Q ->
  point_add P Q ec = slope_point (chord_slope P Q ec) P (x Q) (prime ec).
Proof.
  intros [HPx HPy] [HQx HQy] HP HQ Hx. unfold point_add, is_identity in *.
  rewrite HP, HQ. destruct (Z.eqb_spec (x P) (x Q)) as [? | _]; [contradiction |].
  cbv zeta.
  rewrite (prime_field_sub_mod (prime ec) (x P) (x Q)) by assumption.
  rewrite (prime_field_sub_mod (prime ec) (y P) (y Q)) by assumption.
  fold (chord_slope P Q ec).
  pose proof (chord_slope_in_field P Q) as Hs.
  generalize dependent (chord_slope P Q ec); intros s Hs.
  unfold slope_point; cbv zeta.
  assert (Hrx : prime_field_sub (prime_field_sq s (prime ec))
                  (prime_field_add (x P) (x Q) (prime ec)) (prime ec)
                = (s * s - x P - x Q) mod prime ec).
  { field_ops. mod_ring. }
  rewrite Hrx. f_equal.
  field_ops. rewrite abs_mod. mod_ring.
Qed.

End PointFormulas.

(** ** The point operations on field points

    The slope is 0 whenever its dividend is a field element
    ([prime_field_div_in_field_zero]), so both formulas are linear. *)

Lemma copy_point_id (P : Point) : copy_point P = P.
Proof. destruct P; reflexivity. Qed.

(** One iteration of the loop of [scalar_mult]. *)
Lemma scalar_mult_loop_cons (c : ascii) (rest : str) (res p_copy : Point) (ec : Curve) :
  scalar_mult_loop (c :: rest) res p_copy ec
  = scalar_mult_loop rest
      (if Ascii.eqb c "1"%char then point_add p_copy res ec else res)
      (point_double p_copy ec) ec.
Proof. reflexivity. Qed.

Lemma double_and_add_succ (nbits : nat) (i k : Z) (acc running : Point) (ec : Curve) :
  double_and_add (S nbits) i k acc running ec
  = double_and_add nbits (i + 1) k
      (if Z.testbit k i then point_add running acc ec else acc)
      (point_double running ec) ec.
Proof. reflexivity. Qed.

Lemma coef_loop_bounds (visited : str) :
  forall res pc, coef_ok res pc ->
  match coef_loop visited res pc with
  | None => True
  | Some r => 0 < Z.abs (fst r) < Z.abs (fst pc) * 2 ^ Z.of_nat (List.length visited)
              /\ Z.abs (snd r) = 1
  end.
Proof.
  induction visited as [| c rest IH]; intros res pc (Hpc & Hs & Hres).
  - cbn. destruct res as [r |]; [| exact I]. lia.
  - cbn [coef_loop List.length]. rewrite Nat2Z.inj_succ, Z.pow_succ_r by lia.
    match goal with |- context [coef_loop rest ?r ?q] => specialize (IH r q) end.
    cbn [fst snd] in IH.
    replace (Z.abs (fst pc) * (2 * 2 ^ Z.of_nat (List.length rest)))
      with (Z.abs (-2 * fst pc) * 2 ^ Z.of_nat (List.length rest)) by lia.
    apply IH. unfold coef_ok; cbn [fst snd].
    destruct (Ascii.eqb c "1"%char); destruct res as [r |]; cbn [fst snd]; lia.
Qed.

Section ScalarMult.

Variable ec : Curve.
Hypothesis prime_is_prime : Z.prime (prime ec).
Hypothesis a_in_field : in_field (prime ec) (a ec).

Lemma prime_gt_1 : 1 < prime ec.
Proof. pose proof (Z.prime_ge_2 _ prime_is_prime); lia. Qed.

Lemma tangent_slope_zero (P : Point) : tangent_slope P ec = 0.
Proof.
  unfold tangent_slope. apply prime_field_div_in_field_zero;
    [exact prime_gt_1 | apply mod_in_field; exact prime_gt_1].
Qed.

Lemma chord_slope_zero (P Q : Point) : chord_slope P Q ec = 0.
Proof.
  unfold chord_slope. apply prime_field_div_in_field_zero;
    [exact prime_gt_1 | apply mod_in_field; exact prime_gt_1].
Qed.

Lemma point_double_linear (P : Point) :
  field_point (prime ec) P -> point_double P ec = scale (-2, -1) P (prime ec).
Proof.
  intros HP. rewrite point_double_formula by (try exact prime_gt_1; assumption).
  rewrite tangent_slope_zero. unfold slope_point, scale; cbn [fst snd x y].
  f_equal; mod_ring.
Qed.

Lemma point_add_linear (P Q : Point) :
  field_point (prime ec) P -> field_point (prime ec) Q ->
  is_identity P = false -> is_identity Q = false -> x P <> x Q ->
  point_add P Q ec = {| x := (- (x P + x Q)) mod prime ec; y := (- y P) mod prime ec |}.
Proof.
  intros HP HQ HPi HQi Hx.
  rewrite point_add_formula by (try exact prime_gt_1; assumption).
  rewrite chord_slope_zero. unfold slope_point; cbn [fst snd x y].
  f_equal; mod_ring.
Qed.

(** The prime modulus divides no product of two nonzero numbers below it. *)
Lemma mul_mod_nonzero (c n : Z) :
  0 < Z.abs c < prime ec -> 0 < n < prime ec -> (c * n) mod prime ec <> 0.
Proof.
  intros Hc Hn Hz. pose proof prime_gt_1 as Hp.
  apply Z.mod_divide in Hz; [| lia].
  apply Z.divide_prime_mul in Hz; [| exact prime_is_prime].
  destruct Hz as [Hd | Hd]; apply Z.absle_divide in Hd; lia.
Qed.

Lemma mul_mod_distinct (c1 c2 n : Z) :
  0 < Z.abs (c1 - c2) < prime ec -> 0 < n < prime ec ->
  (c1 * n) mod prime ec <> (c2 * n) mod prime ec.
Proof.
  intros Hc Hn Heq. apply (mul_mod_nonzero (c1 - c2) n Hc Hn).
  replace ((c1 - c2) * n) with (c1 * n - c2 * n) by ring.
  rewrite Zminus_mod, Heq, Z.sub_diag. apply Z.mod_0_l.
  pose proof prime_gt_1; lia.
Qed.

Variable P : Point.
Hypothesis P_field : field_point (prime ec) P.
Hypothesis P_x_nonzero : x P <> 0.

Lemma scale_field_point (c : coef) : field_point (prime ec) (scale c P (prime ec)).
Proof. split; apply mod_in_field, prime_gt_1. Qed.

Lemma scale_not_identity (c : coef) :
  0 < Z.abs (fst c) < prime ec -> is_identity (scale c P (prime ec)) = false.
Proof.
  intros Hc. unfold is_identity, scale; cbn [x y].
  destruct P_field as [Hx _]. unfold in_field in Hx.
  destruct (Z.eqb_spec ((fst c * x P) mod prime ec) 0) as [Hz | _]; [| reflexivity].
  exfalso; revert Hz; apply mul_mod_nonzero; lia.
Qed.

(** The loop on points follows the loop on coefficients as long as the
    coefficients stay below the modulus. *)
Lemma scalar_mult_loop_coef (visited : str) :
  forall res pc,
    coef_ok res pc ->
    Z.abs (fst pc) * 2 ^ Z.of_nat (List.length visited) <= prime ec ->
    scalar_mult_loop visited (scale_opt res P (prime ec)) (scale pc P (prime ec)) ec
    = scale_opt (coef_loop visited res pc) P (prime ec).
Proof.
  pose proof prime_gt_1 as Hp. destruct P_field as [Hx Hy]. unfold in_field in Hx.
  induction visited as [| c rest IH]; intros res pc (Hpc & Hs & Hres) Hlen.
  - reflexivity.
  - cbn [scalar_mult_loop coef_loop]. cbn [List.length] in Hlen.
    rewrite Nat2Z.inj_succ, Z.pow_succ_r in Hlen by lia.
    assert (Hpow : 0 < 2 ^ Z.of_nat (List.length rest)) by (apply Z.pow_pos_nonneg; lia).
    assert (Hpc2 : 2 * Z.abs (fst pc) <= prime ec) by nia.
    rewrite point_double_linear by apply scale_field_point.
    assert (Hdbl : scale (-2, -1) (scale pc P (prime ec)) (prime ec)
                   = scale (-2 * fst pc, - snd pc) P (prime ec)).
    { unfold scale; cbn [fst snd x y]. f_equal; mod_ring. }
    rewrite Hdbl.
    match goal with
    | |- scalar_mult_loop rest ?r _ _ = scale_opt (coef_loop rest ?r' ?q) _ _ =>
        assert (Hstep : r = scale_opt r' P (prime ec) /\ coef_ok r' q)
    end.
    { unfold coef_ok; cbn [fst snd].
      destruct (Ascii.eqb c "1"%char); [| split; [reflexivity |]; destruct res; lia].
      destruct res as [r |]; cbn [scale_opt].
      - destruct Hres as [Hr Hrs]. split; [| cbn [fst snd]; lia].
        rewrite point_add_linear;
          try apply scale_field_point; try (apply scale_not_identity; lia).
        + unfold scale; cbn [fst snd x y]. f_equal; mod_ring.
        + cbn [scale x]. apply mul_mod_distinct; lia.
      - split; [| lia]. unfold point_add.
        rewrite <- (copy_point_id (scale pc P (prime ec))) at 3.
        fold (is_identity (scale pc P (prime ec))).
        rewrite scale_not_identity by lia. reflexivity. }
    destruct Hstep as [-> Hok]. apply IH; [exact Hok |].
    cbn [fst]. replace (Z.abs (-2 * fst pc)) with (2 * Z.abs (fst pc)) by lia. lia.
Qed.

End ScalarMult.

(** * Hexadecimal strings *)

Lemma mpz_get_str_msb (base n : Z) :
  0 <= n -> mpz_get_str base n = map digit_char (msb_digits base n).
Proof.
  intros Hn. unfold mpz_get_str, msb_digits, digits_of.
  destruct (Z.eqb_spec n 0) as [-> | Hnz]; [reflexivity |].
  destruct (Z.ltb_spec n 0); [lia |].
  rewrite Z.abs_eq, map_rev by lia. reflexivity.
Qed.

Lemma msb_digits_range (base n : Z) :
  2 <= base -> Forall (fun d => 0 <= d < base) (msb_digits base n).
Proof.
  intros Hb. unfold msb_digits. destruct (n =? 0).
  - constructor; [lia | constructor].
  - apply Forall_rev, digits_lsb_range; exact Hb.
Qed.

Lemma msb_digits_nonempty (base n : Z) : msb_digits base n <> [].
Proof.
  unfold msb_digits, digits_of, digits_fuel.
  destruct (Z.eqb_spec n 0) as [-> | Hnz]; [discriminate |].
  intros Hrev. apply (f_equal (@rev Z)) in Hrev. rewrite rev_involutive in Hrev.
  revert Hrev. apply digits_lsb_nonempty; exact Hnz.
Qed.

Lemma value_msb_rev (base : Z) (ds : list Z) :
  value_msb base 0 (rev ds) = value_lsb base ds.
Proof.
  unfold value_msb. induction ds as [| d ds IH]; [reflexivity |].
  cbn [rev value_lsb]. rewrite fold_left_app, IH. cbn. ring.
Qed.

Lemma msb_digits_value (base n : Z) :
  2 <= base -> 0 <= n -> value_msb base 0 (msb_digits base n) = n.
Proof.
  intros Hb Hn. unfold msb_digits. destruct (Z.eqb_spec n 0) as [-> | Hnz]; [reflexivity |].
  rewrite value_msb_rev. apply digits_of_value; assumption.
Qed.

Lemma value_msb_zeros (base : Z) (k : nat) (ds : list Z) :
  value_msb base 0 (repeat 0 k ++ ds) = value_msb base 0 ds.
Proof.
  unfold value_msb. induction k as [| k IH]; [reflexivity |]. cbn. exact IH.
Qed.

(** The sixteen digit characters: their values, and what they are not. *)
Lemma hex_digit_char (d : Z) :
  0 <= d < 16 ->
  digit_value (digit_char d) = Some d
  /\ isspace (digit_char d) = false
  /\ digit_char d <> "-"%char
  /\ Ascii.eqb (digit_char d) NUL = false.
Proof.
  intros Hd.
  assert (Hin : In d (map Z.of_nat (seq 0 16))).
  { replace d with (Z.of_nat (Z.to_nat d)) by lia. apply in_map, in_seq. lia. }
  cbn in Hin.
  repeat (destruct Hin as [<- | Hin]; [repeat split; discriminate |]).
  contradiction.
Qed.

Lemma parse_digits_hex (ds : list Z) :
  Forall (fun d => 0 <= d < 16) ds ->
  forall acc, parse_digits 16 acc (map digit_char ds) = Some (value_msb 16 acc ds).
Proof.
  induction 1 as [| d ds Hd Hds IH]; intros acc; [reflexivity |].
  cbn [map parse_digits]. destruct (hex_digit_char d Hd) as (-> & -> & _ & _).
  destruct (Z.ltb_spec d 16); [| lia]. apply IH.
Qed.

Lemma mpz_set_str_hex (ds : list Z) :
  Forall (fun d => 0 <= d < 16) ds -> ds <> [] ->
  mpz_set_str (map digit_char ds) 16 = Some (value_msb 16 0 ds).
Proof.
  intros Hds Hne. destruct ds as [| d ds]; [contradiction |].
  pose proof (parse_digits_hex _ Hds 0) as Hparse.
  inversion Hds as [| ? ? Hd _]; subst.
  destruct (hex_digit_char d Hd) as (Hv & Hsp & Hminus & _).
  unfold mpz_set_str. cbn [map skip_space]. rewrite Hsp.
  destruct (digit_char d) as [b0 b1 b2 b3 b4 b5 b6 b7] eqn:Hc.
  assert (Hnot : (Ascii b0 b1 b2 b3 b4 b5 b6 b7 :: map digit_char ds)
                 = (digit_char d :: map digit_char ds)) by (rewrite Hc; reflexivity).
  destruct b0, b1, b2, b3, b4, b5, b6, b7;
    try (exfalso; apply Hminus; reflexivity);
    rewrite Hv; (destruct (Z.ltb_spec d 16); [| lia]);
    cbn [map] in Hparse; rewrite Hc in Hparse; rewrite Hparse; reflexivity.
Qed.

(** A zero-padded hexadecimal field reads back as the number it was written
    from. *)
Theorem str_to_scalar_hex_field (k : nat) (n : Z) :
  0 <= n -> str_to_scalar (repeat "0"%char k ++ mpz_get_str 16 n) = (n, 0).
Proof.
  intros Hn. rewrite mpz_get_str_msb by exact Hn.
  change (repeat "0"%char k) with (repeat (digit_char 0) k).
  rewrite <- map_repeat, <- map_app.
  unfold str_to_scalar, mpz_init_set_str. rewrite mpz_set_str_hex.
  - rewrite value_msb_zeros, msb_digits_value by lia. reflexivity.
  - apply Forall_app; split; [| apply msb_digits_range; lia].
    apply Forall_forall. intros d Hin. apply repeat_spec in Hin. lia.
  - intros Happ. apply app_eq_nil in Happ as [_ Hnil].
    revert Hnil. apply msb_digits_nonempty.
Qed.

(** * Writing into a buffer *)

Lemma firstn_prefix {A : Type} (pre rest : list A) : firstn (List.length pre) (pre ++ rest) = pre.
Proof.
  rewrite firstn_app, Nat.sub_diag, firstn_all. cbn. apply app_nil_r.
Qed.

Lemma skipn_prefix {A : Type} (pre old rest : list A) (n : nat) :
  n = (List.length pre + List.length old)%nat -> skipn n (pre ++ old ++ rest) = rest.
Proof.
  intros ->. rewrite app_assoc, <- length_app.
  rewrite skipn_app, Nat.sub_diag, skipn_all. reflexivity.
Qed.

Lemma store_at (pre : str) (old : ascii) (rest : str) (i : nat) (c : ascii) :
  i = List.length pre -> store (pre ++ old :: rest) i c = pre ++ c :: rest.
Proof.
  intros ->. unfold store. rewrite firstn_prefix. f_equal. f_equal.
  apply (skipn_prefix pre [old] rest). cbn; lia.
Qed.

Lemma strncpy_at (pre old rest src : str) (off : nat) :
  off = List.length pre -> List.length old = List.length src ->
  strncpy (pre ++ old ++ rest) off src (List.length src) = pre ++ src ++ rest.
Proof.
  intros -> Hlen. unfold strncpy; cbv zeta.
  rewrite firstn_prefix, firstn_prefix. f_equal. f_equal.
  apply skipn_prefix. lia.
Qed.

Lemma fill_zeros_at (count : nat) :
  forall (pre rest : str) (from : nat),
    from = List.length pre ->
    fill_zeros (pre ++ repeat NUL count ++ rest) from count
    = pre ++ repeat "0"%char count ++ rest.
Proof.
  unfold fill_zeros. induction count as [| count IH]; intros pre rest from ->.
  - reflexivity.
  - cbn [seq fold_left repeat app]. rewrite store_at by reflexivity.
    change (pre ++ "0"%char :: repeat NUL count ++ rest)
      with (pre ++ ["0"%char] ++ repeat NUL count ++ rest).
    rewrite app_assoc, IH by (rewrite length_app; cbn; lia).
    rewrite <- app_assoc. reflexivity.
Qed.

Lemma c_string_terminated (s rest : str) :
  Forall (fun c => Ascii.eqb c NUL = false) s -> c_string (s ++ NUL :: rest) = s.
Proof.
  induction 1 as [| c s Hc Hs IH]; cbn [app c_string].
  - reflexivity.
  - rewrite Hc, IH. reflexivity.
Qed.

Lemma hex_chars_not_nul (ds : list Z) :
  Forall (fun d => 0 <= d < 16) ds ->
  Forall (fun c => Ascii.eqb c NUL = false) (map digit_char ds).
Proof.
  induction 1 as [| d ds Hd Hds IH]; constructor; [| exact IH].
  apply (hex_digit_char d Hd).
Qed.

Lemma mpz_get_str_not_nul (n : Z) :
  0 <= n -> Forall (fun c => Ascii.eqb c NUL = false) (mpz_get_str 16 n).
Proof.
  intros Hn. rewrite mpz_get_str_msb by exact Hn.
  apply hex_chars_not_nul, msb_digits_range; lia.
Qed.

Lemma zeros_not_nul (k : nat) : Forall (fun c => Ascii.eqb c NUL = false) (repeat "0"%char k).
Proof. apply Forall_forall. intros c Hin. apply repeat_spec in Hin. subst; reflexivity. Qed.

(** * Point strings *)

Ltac solve_len :=
  cbn [List.length]; rewrite ?length_app, ?repeat_length; cbn [List.length]; lia.

(** Rewrites a [strncpy] of [src] over the segment [old] that follows [pre]. *)
Ltac copy_over pre old rest src off :=
  let E := fresh "E" in
  assert (E : strncpy (pre ++ old ++ rest) off src (List.length src) = pre ++ src ++ rest)
    by (apply strncpy_at; [solve_len | rewrite repeat_length; reflexivity]);
  cbn [app] in E; rewrite <- ?app_assoc in E; cbn [app] in E; rewrite E; clear E.

Lemma c_string_sec1 (pad1 pad2 xs ys : str) :
  Forall (fun c => Ascii.eqb c NUL = false) pad1 ->
  Forall (fun c => Ascii.eqb c NUL = false) pad2 ->
  Forall (fun c => Ascii.eqb c NUL = false) xs ->
  Forall (fun c => Ascii.eqb c NUL = false) ys ->
  c_string ("0"%char :: "4"%char :: pad1 ++ xs ++ pad2 ++ ys ++ [NUL])
  = lit "04" ++ (pad1 ++ xs) ++ (pad2 ++ ys).
Proof.
  intros H1 H2 HX HY.
  pose proof (c_string_terminated (lit "04" ++ (pad1 ++ xs) ++ (pad2 ++ ys)) []) as E.
  rewrite <- E.
  - cbn [lit list_ascii_of_string app]. rewrite <- !app_assoc. reflexivity.
  - repeat (apply Forall_app; split); try assumption.
    repeat constructor.
Qed.

Lemma point_to_str_sec1 (P : Point) :
  0 <= x P -> 0 <= y P -> fst (point_to_str P) = sec1_uncompressed P.
Proof.
  intros Hx Hy. unfold point_to_str, sec1_uncompressed, scalar_to_str; cbv zeta.
  pose proof (mpz_get_str_not_nul (x P) Hx) as HX.
  pose proof (mpz_get_str_not_nul (y P) Hy) as HY.
  set (xs := mpz_get_str 16 (x P)) in *. set (ys := mpz_get_str 16 (y P)) in *.
  clearbody xs ys. cbn [fst]. unfold calloc.
  destruct (Nat.ltb_spec (List.length xs) (List.length ys)) as [Hlt | Hge];
    [| destruct (Nat.ltb_spec (List.length ys) (List.length xs)) as [Hlt | Hle]].
  - rewrite Nat.max_r, Nat.sub_diag by lia.
    match goal with |- context [repeat NUL ?n] =>
      replace n with (2 + ((List.length ys - List.length xs)
                           + (List.length xs + (List.length ys + 1))))%nat by lia
    end.
    rewrite !repeat_app.
    rewrite (fill_zeros_at _ (repeat NUL 2)) by reflexivity.
    cbn [repeat app]. unfold store at 2; cbn [firstn skipn app]. unfold store; cbn [firstn skipn app].
    copy_over ("0"%char :: "4"%char :: repeat "0"%char (List.length ys - List.length xs))
              (repeat NUL (List.length xs)) (repeat NUL (List.length ys) ++ [NUL]) xs
              (2 + (List.length ys - List.length xs))%nat.
    copy_over ("0"%char :: "4"%char :: repeat "0"%char (List.length ys - List.length xs) ++ xs)
              (repeat NUL (List.length ys)) [NUL] ys
              (2 + (List.length ys - List.length xs) + 0 + List.length xs)%nat.
    apply (c_string_sec1 _ [] xs ys); auto using zeros_not_nul.
  - rewrite Nat.max_l, Nat.sub_diag by lia.
    match goal with |- context [repeat NUL ?n] =>
      replace n with (2 + (List.length xs + ((List.length xs - List.length ys)
                           + (List.length ys + 1))))%nat by lia
    end.
    rewrite !repeat_app.
    rewrite (app_assoc (repeat NUL 2)).
    rewrite (fill_zeros_at _ (repeat NUL 2 ++ repeat NUL (List.length xs))) by solve_len.
    rewrite <- app_assoc.
    cbn [repeat app]. unfold store at 2; cbn [firstn skipn app]. unfold store; cbn [firstn skipn app].
    copy_over ["0"%char; "4"%char] (repeat NUL (List.length xs))
              (repeat "0"%char (List.length xs - List.length ys) ++ repeat NUL (List.length ys) ++ [NUL])
              xs 2%nat.
    copy_over ("0"%char :: "4"%char :: xs ++ repeat "0"%char (List.length xs - List.length ys))
              (repeat NUL (List.length ys)) [NUL] ys
              (2 + (List.length xs - List.length ys) + List.length xs)%nat.
    apply (c_string_sec1 [] _ xs ys); auto using zeros_not_nul.
  - assert (Heq : List.length xs = List.length ys) by lia.
    rewrite Heq, Nat.max_id, Nat.sub_diag.
    match goal with |- context [repeat NUL ?n] =>
      replace n with (2 + (List.length ys + (List.length ys + 1)))%nat by lia
    end.
    rewrite !repeat_app.
    cbn [repeat app]. unfold store at 2; cbn [firstn skipn app]. unfold store; cbn [firstn skipn app].
    rewrite <- Heq at 1 3.
    copy_over ["0"%char; "4"%char] (repeat NUL (List.length xs))
              (repeat NUL (List.length ys) ++ [NUL]) xs 2%nat.
    rewrite <- Heq at 2.
    copy_over ("0"%char :: "4"%char :: xs) (repeat NUL (List.length ys)) [NUL] ys
              (2 + 0 + List.length xs)%nat.
    apply (c_string_sec1 [] [] xs ys); auto.
Qed.

(** The characters [s[k]], ..., [s[k + n - 1]] that the loop of
    [str_to_point] copies. *)
Lemma copied_segment (mid : str) :
  forall (pre rest : str) (k : nat),
    k = List.length pre ->
    map (fun i => char_at (pre ++ mid ++ rest) (i + k)) (seq 0 (List.length mid)) = mid.
Proof.
  induction mid as [| c mid IH]; intros pre rest k ->; [reflexivity |].
  cbn [List.length seq map]. f_equal.
  - unfold char_at. cbn [Nat.add]. rewrite app_nth2, Nat.sub_diag by lia. reflexivity.
  - rewrite <- seq_shift, map_map.
    transitivity (map (fun i => char_at ((pre ++ [c]) ++ mid ++ rest) (i + S (List.length pre)))
                    (seq 0 (List.length mid))).
    + apply map_ext. intros i. rewrite <- app_assoc. cbn [app].
      f_equal. lia.
    + apply IH. rewrite length_app; cbn; lia.
Qed.

Lemma length_sec1_field (width : nat) (s : str) :
  (List.length s <= width)%nat ->
  List.length (repeat "0"%char (width - List.length s) ++ s) = width.
Proof. intros Hle. rewrite length_app, repeat_length. lia. Qed.

(** Decoding what [point_to_str] wrote gives the point back. *)
Lemma str_to_point_sec1 (P : Point) :
  0 <= x P -> 0 <= y P -> str_to_point (sec1_uncompressed P) = Returned P.
Proof.
  intros Hx Hy. unfold sec1_uncompressed; cbv zeta.
  set (w := Nat.max (List.length (mpz_get_str 16 (x P))) (List.length (mpz_get_str 16 (y P)))).
  pose proof (length_sec1_field w (mpz_get_str 16 (x P)) ltac:(lia)) as Hfx.
  pose proof (length_sec1_field w (mpz_get_str 16 (y P)) ltac:(lia)) as Hfy.
  pose proof (str_to_scalar_hex_field (w - List.length (mpz_get_str 16 (x P))) (x P) Hx) as Hsx.
  pose proof (str_to_scalar_hex_field (w - List.length (mpz_get_str 16 (y P))) (y P) Hy) as Hsy.
  set (fx := repeat "0"%char (w - List.length (mpz_get_str 16 (x P))) ++ mpz_get_str 16 (x P)) in *.
  set (fy := repeat "0"%char (w - List.length (mpz_get_str 16 (y P))) ++ mpz_get_str 16 (y P)) in *.
  clearbody fx fy. unfold str_to_point; cbv zeta.
  assert (Hlen : List.length (lit "04" ++ fx ++ fy) = ((1 + w) * 2)%nat).
  { rewrite !length_app, Hfx, Hfy. cbn [lit list_ascii_of_string List.length]. lia. }
  rewrite Hlen, Nat.div_mul by lia.
  destruct (Z.ltb_spec (Z.of_nat (1 + w) - 1) 0) as [Hneg | _]; [lia |].
  replace (Z.to_nat (Z.of_nat (1 + w) - 1)) with w by lia.
  rewrite <- Hfx at 1.
  rewrite (copied_segment fx (lit "04") fy 2) by reflexivity.
  rewrite <- Hfy at 1.
  assert (Hys : map (fun i => char_at (lit "04" ++ fx ++ fy) (i + 1 + (1 + w))) (seq 0 (List.length fy))
                = fy).
  { transitivity (map (fun i => char_at ((lit "04" ++ fx) ++ fy ++ []) (i + (2 + w)))
                    (seq 0 (List.length fy))).
    - apply map_ext. intros i. rewrite app_nil_r, <- app_assoc. f_equal. lia.
    - apply copied_segment. rewrite length_app, Hfx. reflexivity. }
  rewrite Hys, Hsx, Hsy. destruct P; reflexivity.
Qed.

(** Encoding then decoding a point with non-negative coordinates. *)
Lemma point_roundtrip (P : Point) :
  0 <= x P -> 0 <= y P -> str_to_point (fst (point_to_str P)) = Returned P.
Proof.
  intros Hx Hy. rewrite point_to_str_sec1 by assumption.
  apply str_to_point_sec1; assumption.
Qed.

(** * Key pairs *)

Lemma mpz_import_bounds (buf : list Byte.byte) :
  0 <= mpz_import buf < 2 ^ (8 * Z.of_nat (List.length buf)).
Proof.
  unfold mpz_import.
  assert (Hgen : forall acc k, 0 <= acc < 2 ^ (8 * Z.of_nat k) ->
            0 <= fold_left (fun acc b => acc * 256 + Z.of_N (Byte.to_N b)) buf acc
            < 2 ^ (8 * Z.of_nat (k + List.length buf))).
  { induction buf as [| b buf IH]; intros acc k Hacc.
    - cbn [fold_left List.length]. rewrite Nat.add_0_r. exact Hacc.
    - cbn [fold_left List.length].
      replace (k + S (List.length buf))%nat with (S k + List.length buf)%nat by lia.
      apply IH.
      replace (8 * Z.of_nat (S k)) with (8 * Z.of_nat k + 8) by lia.
      rewrite Z.pow_add_r by lia. change (2 ^ 8) with 256.
      pose proof (Byte.to_N_bounded b) as Hb. lia. }
  apply (Hgen 0 0%nat). cbn; lia.
Qed.

Lemma length_fread (urandom : list Byte.byte) (bytes : nat) :
  List.length (fread urandom bytes) = bytes.
Proof.
  unfold fread. rewrite firstn_length_le; [reflexivity |].
  rewrite length_app, repeat_length. lia.
Qed.

Lemma length_digits_lsb (base : Z) (fuel : nat) :
  forall n, (List.length (digits_lsb fuel base n) <= fuel)%nat.
Proof.
  induction fuel as [| fuel IH]; intros n; cbn [digits_lsb]; [cbn; lia |].
  destruct (n =? 0); cbn [List.length]; [lia |]. specialize (IH (n / base)). lia.
Qed.

Lemma length_binary (k m : Z) :
  0 <= k < 2 ^ m -> 0 <= m -> Z.of_nat (List.length (mpz_get_str 2 k)) <= m + 1.
Proof.
  intros Hk Hm. unfold mpz_get_str. destruct (Z.eqb_spec k 0) as [-> | Hnz]; [cbn; lia |].
  destruct (Z.ltb_spec k 0); [lia |].
  rewrite Z.abs_eq by lia. cbn [app]. rewrite length_rev, length_map.
  pose proof (length_digits_lsb 2 (digits_fuel k) k) as Hlen.
  unfold digits_fuel in *.
  assert (Z.log2 k < m) by (apply Z.log2_lt_pow2; lia).
  pose proof (Z.log2_nonneg k). lia.
Qed.

Lemma ec_gen_key_pair_on (curve : Curve) (urandom : list Byte.byte) :
  ec (gen_key_pair_on curve urandom) = curve.
Proof. reflexivity. Qed.

Section Agreement.

Variable ec : Curve.
Hypothesis prime_is_prime : Z.prime (prime ec).
Hypothesis a_in_field : in_field (prime ec) (a ec).
Hypothesis G_field : field_point (prime ec) (G ec).
Hypothesis G_x_nonzero : x (G ec) <> 0.
Hypothesis key_size_nonneg : 0 <= key_size_bits ec.
Hypothesis key_size_below_prime : 2 ^ (key_size_bits ec + 1) <= prime ec.

Lemma scale_opt_create_point (r : option coef) :
  scale_opt r create_point (prime ec) = create_point.
Proof.
  destruct r as [c |]; [| reflexivity].
  unfold scale_opt, scale, create_point; cbn [x y]. rewrite !Z.mul_0_r, Zmod_0_l. reflexivity.
Qed.

Lemma point_double_create_point : point_double create_point ec = create_point.
Proof.
  pose proof (prime_gt_1 ec prime_is_prime) as Hp.
  rewrite point_double_linear; [| exact prime_is_prime | exact a_in_field |].
  - exact (scale_opt_create_point (Some (-2, -1))).
  - unfold field_point, in_field, create_point; cbn [x y]. lia.
Qed.

Lemma point_add_create_point : point_add create_point create_point ec = create_point.
Proof. reflexivity. Qed.

Lemma scalar_mult_loop_create_point (visited : str) :
  scalar_mult_loop visited create_point create_point ec = create_point.
Proof.
  induction visited as [| c rest IH]; [reflexivity |].
  rewrite scalar_mult_loop_cons, point_double_create_point.
  destruct (Ascii.eqb c "1"%char); [rewrite point_add_create_point |]; exact IH.
Qed.

Lemma binary_below_prime (k : Z) :
  key_scalar ec k -> 2 ^ Z.of_nat (List.length (rev (mpz_get_str 2 k))) <= prime ec.
Proof.
  intros Hk. rewrite length_rev.
  pose proof (length_binary k (key_size_bits ec) Hk key_size_nonneg) as Hlen.
  etransitivity; [| exact key_size_below_prime].
  apply Z.pow_le_mono_r; lia.
Qed.

Theorem scalar_mult_coef (P : Point) (k : Z) :
  mult_point ec P -> key_scalar ec k ->
  scalar_mult P k ec = scale_opt (coef_of k) P (prime ec).
Proof.
  intros [-> | [HP Hx]] Hk; unfold scalar_mult, coef_of; cbv zeta.
  - rewrite scale_opt_create_point. apply scalar_mult_loop_create_point.
  - rewrite copy_point_id.
    assert (Hone : P = scale (1, 1) P (prime ec)).
    { destruct HP as [Hpx Hpy]. unfold in_field in *. unfold scale; cbn [fst snd].
      rewrite !Z.mul_1_l, !Z.mod_small by lia. destruct P; reflexivity. }
    rewrite Hone at 1.
    apply (scalar_mult_loop_coef ec prime_is_prime a_in_field P HP Hx _ None (1, 1)).
    + unfold coef_ok; cbn; lia.
    + cbn [fst Z.abs]. rewrite Z.mul_1_l. apply binary_below_prime; exact Hk.
Qed.

Lemma coef_of_bounds (k : Z) (c : coef) :
  key_scalar ec k -> coef_of k = Some c -> 0 < Z.abs (fst c) < prime ec /\ Z.abs (snd c) = 1.
Proof.
  intros Hk Hc. pose proof (coef_loop_bounds (rev (mpz_get_str 2 k)) None (1, 1)) as Hb.
  fold (coef_of k) in Hb. rewrite Hc in Hb. cbn [fst snd Z.abs] in Hb.
  destruct Hb as [Hfst Hsnd]; [unfold coef_ok; cbn; lia |].
  pose proof (binary_below_prime k Hk). lia.
Qed.

(** The multiples of a point are again points the program can multiply. *)
Lemma mult_point_scale_opt (P : Point) (k : Z) :
  mult_point ec P -> key_scalar ec k -> mult_point ec (scale_opt (coef_of k) P (prime ec)).
Proof.
  intros [-> | [HP Hx]] Hk.
  - left. apply scale_opt_create_point.
  - destruct (coef_of k) as [c |] eqn:Hc; [| left; reflexivity].
    right. split; [apply scale_field_point; exact prime_is_prime |].
    destruct (coef_of_bounds k c Hk Hc) as [Hfst _].
    destruct HP as [Hpx _]. unfold in_field in Hpx.
    apply mul_mod_nonzero; [exact prime_is_prime | exact Hfst | lia].
Qed.

Lemma mult_point_nonneg (P : Point) : mult_point ec P -> 0 <= x P /\ 0 <= y P.
Proof.
  intros [-> | [[Hx Hy] _]]; [cbn; lia |]. unfold in_field in *. lia.
Qed.

Lemma scale_opt_comm (r1 r2 : option coef) (P : Point) :
  scale_opt r1 (scale_opt r2 P (prime ec)) (prime ec)
  = scale_opt r2 (scale_opt r1 P (prime ec)) (prime ec).
Proof.
  destruct r1 as [c1 |], r2 as [c2 |]; cbn [scale_opt].
  - unfold scale; cbn [x y]. f_equal; mod_ring.
  - apply (scale_opt_create_point (Some c1)).
  - symmetry. apply (scale_opt_create_point (Some c2)).
  - reflexivity.
Qed.

Lemma G_mult_point : mult_point ec (G ec).
Proof. right. split; assumption. Qed.

Lemma private_key_scalar (urandom : list Byte.byte) :
  key_scalar ec (private (gen_key_pair_on ec urandom)).
Proof.
  unfold key_scalar, gen_key_pair_on; cbn [private].
  pose proof (mpz_import_bounds (fread urandom (Z.to_nat (key_size_bits ec / 8)))) as Hb.
  rewrite length_fread in Hb. split; [lia |].
  eapply Z.lt_le_trans; [apply Hb |].
  apply Z.pow_le_mono_r; [lia |].
  pose proof (Z.mul_div_le (key_size_bits ec) 8). 
  assert (0 <= key_size_bits ec / 8) by (apply Z.div_pos; lia). lia.
Qed.

(** What [get_secret] returns, on the coefficients of the two private keys. *)
Lemma get_secret_coef (uA uB : list Byte.byte) :
  get_secret (gen_key_pair_on ec uA) (public (gen_key_pair_on ec uB))
  = Returned (fst (point_to_str
      (scale_opt (coef_of (private (gen_key_pair_on ec uA)))
         (scale_opt (coef_of (private (gen_key_pair_on ec uB))) (G ec) (prime ec))
         (prime ec)))).
Proof.
  pose proof (private_key_scalar uA) as HA. pose proof (private_key_scalar uB) as HB.
  unfold get_secret.
  assert (Hpub : public (gen_key_pair_on ec uB)
                 = fst (point_to_str (scalar_mult (G ec) (private (gen_key_pair_on ec uB)) ec)))
    by reflexivity.
  rewrite Hpub, scalar_mult_coef by (try apply G_mult_point; assumption).
  pose proof (mult_point_scale_opt (G ec) _ G_mult_point HB) as HQ.
  rewrite point_roundtrip by (apply mult_point_nonneg; exact HQ).
  cbn [bind]. rewrite ec_gen_key_pair_on.
  rewrite scalar_mult_coef by assumption. reflexivity.
Qed.

(** Both parties of the exchange get the same string. *)
Theorem key_agreement_on (uA uB : list Byte.byte) :
  let alice := gen_key_pair_on ec uA in
  let bob := gen_key_pair_on ec uB in
  exists secret,
    get_secret alice (public bob) = Returned secret
    /\ get_secret bob (public alice) = Returned secret.
Proof.
  cbv zeta. rewrite (get_secret_coef uA uB), (get_secret_coef uB uA).
  eexists; split; [reflexivity |]. rewrite scale_opt_comm. reflexivity.
Qed.

End Agreement.

(** * Primality certificates *)

Lemma no_divisor_sound (fuel : nat) :
  forall d n, 0 < d -> no_divisor fuel d n = true ->
  forall k, d <= k -> k * k <= n -> ~ (k | n).
Proof.
  induction fuel as [| fuel IH]; intros d n Hd Hcheck k Hk Hkk Hdiv; [discriminate |].
  cbn [no_divisor] in Hcheck.
  destruct (Z.ltb_spec n (d * d)) as [Hlt | Hge]; [nia |].
  destruct (Z.eqb_spec (n mod d) 0) as [| Hmod]; [discriminate |].
  destruct (Z.eq_dec d k) as [-> | Hne].
  - apply Hmod, Z.mod_divide; [lia | exact Hdiv].
  - apply (IH (d + 1) n ltac:(lia) Hcheck k); [lia | exact Hkk | exact Hdiv].
Qed.

Theorem trial_division_prime (n : Z) : trial_division n = true -> Z.prime n.
Proof.
  unfold trial_division. intros [Hn Hcheck]%andb_true_iff. apply Z.ltb_lt in Hn.
  split; [exact Hn |]. intros m Hm [c Hc].
  assert (Hcpos : 1 < c < n) by nia.
  destruct (Z.le_ge_cases m c) as [Hle | Hle].
  - apply (no_divisor_sound _ 2 n ltac:(lia) Hcheck m); [lia | nia | exists c; exact Hc].
  - apply (no_divisor_sound _ 2 n ltac:(lia) Hcheck c); [lia | nia | exists m; lia].
Qed.

Lemma prime_divisor (n : Z) : 1 < n -> exists r, Z.prime r /\ (r | n).
Proof.
  intros Hn. assert (H0 : 0 <= n) by lia. revert Hn.
  pattern n. apply (Zlt_0_ind _ ); [| exact H0]. clear n H0.
  intros n IH _ Hn.
  destruct (prime_dec n) as [Hp | Hnp].
  - exists n. split; [apply prime_alt; exact Hp | apply Z.divide_refl].
  - destruct (not_prime_divide n Hn Hnp) as (m & Hm & Hdiv).
    destruct (IH m ltac:(lia) ltac:(lia)) as (r & Hr & Hrm).
    exists r. split; [exact Hr | eapply Z.divide_trans; eassumption].
Qed.

Lemma pow_mod_one (b r e : Z) : 1 < r -> 0 <= e -> b mod r = 1 -> (b ^ e) mod r = 1.
Proof.
  intros Hr He Hb. rewrite <- Z.mod_pow_l, Hb, Z.pow_1_l by lia. apply Z.mod_small; lia.
Qed.

(** A prime factor [r] of [n] is 1 modulo each prime [q] that passes the
    criterion. *)
Lemma pocklington_step (n q w r : Z) :
  1 < n -> Z.prime q -> Z.prime r -> (r | n) ->
  (n - 1) mod q = 0 ->
  (w ^ (n - 1)) mod n = 1 ->
  Z.gcd ((w ^ ((n - 1) / q)) mod n - 1) n = 1 ->
  (q | r - 1).
Proof.
  intros Hn Hq Hr Hrn Hqn Hpow Hgcd.
  pose proof (Z.prime_ge_2 _ Hq) as Hq2. pose proof (Z.prime_ge_2 _ Hr) as Hr2.
  set (m := (n - 1) / q) in *.
  assert (Hm : n - 1 = q * m).
  { unfold m. pose proof (Z.div_mod (n - 1) q ltac:(lia)). lia. }
  assert (Hm0 : 0 < m) by nia.
  set (b := w ^ m) in *.
  assert (Hbq : (b ^ q) mod r = 1).
  { unfold b. rewrite <- Z.pow_mul_r by lia. rewrite (Z.mul_comm m q), <- Hm.
    destruct Hrn as [c Hc].
    assert (Hdiv : (r | w ^ (n - 1) - 1)).
    { apply Z.divide_trans with n; [exists c; exact Hc |].
      apply Z.mod_divide; [lia |]. rewrite Zminus_mod, Hpow.
      rewrite (Z.mod_small 1 n) by lia. reflexivity. }
    destruct Hdiv as [e He].
    replace (w ^ (n - 1)) with (1 + e * r) by lia.
    rewrite Z.mod_add by lia. apply Z.mod_small; lia. }
  assert (Hb1 : ~ (r | b - 1)).
  { intros Hdiv.
    assert (Hd : (r | b mod n - 1)).
    { rewrite (Z.mod_eq b n) by lia.
      replace (b - n * (b / n) - 1) with ((b - 1) - n * (b / n)) by ring.
      apply Z.divide_sub_r; [exact Hdiv |]. apply Z.divide_mul_l; exact Hrn. }
    pose proof (Z.gcd_greatest _ _ _ Hd Hrn) as Hg. rewrite Hgcd in Hg.
    apply Z.divide_1_r_nonneg in Hg; lia. }
  assert (Hb0 : b mod r <> 0).
  { intros Hz. rewrite <- Z.mod_pow_l, Hz, Z.pow_0_l, Z.mod_0_l in Hbq by lia. discriminate. }
  pose proof (ZmodInv.Z.fermat_nz r b Hr Hb0) as Hfermat.
  destruct (Z.BoolSpec_divide_nz q (r - 1) ltac:(lia)) as [Hyes | Hno]; [exact Hyes | exfalso].
  apply Z.coprime_prime_l in Hno; [| exact Hq].
  apply Z.Bezout_coprime_iff in Hno. destruct Hno as (u & v & Huv).
  set (K := Z.abs u + Z.abs v + 1).
  set (s := u + K * (r - 1)). set (t := K * q - v).
  assert (HK : 0 <= K) by (unfold K; lia).
  assert (Hs : 0 <= s).
  { assert (K * 1 <= K * (r - 1)) by (apply Z.mul_le_mono_nonneg_l; lia).
    unfold s, K in *; lia. }
  assert (Ht : 0 <= t).
  { assert (K * 1 <= K * q) by (apply Z.mul_le_mono_nonneg_l; lia).
    unfold t, K in *; lia. }
  assert (Hst : s * q = 1 + t * (r - 1)).
  { unfold s, t. transitivity (u * q + v * (r - 1) + (K * q - v) * (r - 1));
      [ring | rewrite Huv; reflexivity]. }
  apply Hb1. apply Z.mod_divide; [lia |].
  assert (H1 : (b ^ (s * q)) mod r = 1).
  { rewrite (Z.mul_comm s q), Z.pow_mul_r by lia. apply pow_mod_one; [lia | lia | exact Hbq]. }
  assert (Htr : 0 <= t * (r - 1)) by (apply Z.mul_nonneg_nonneg; lia).
  rewrite Hst, Z.pow_add_r, Z.pow_1_r, (Z.mul_comm t), Z.pow_mul_r in H1 by lia.
  rewrite <- Z.mul_mod_idemp_r, (pow_mod_one _ r t ltac:(lia) Ht Hfermat), Z.mul_1_r in H1 by lia.
  rewrite Zminus_mod, H1, (Z.mod_small 1 r) by lia. reflexivity.
Qed.

Lemma pocklington_divides (n r : Z) (cert : list (Z * Z)) :
  1 < n -> Z.prime r -> (r | n) ->
  Forall (fun c => Z.prime (fst c)) cert ->
  pocklington n cert = true ->
  (product (map fst cert) | r - 1).
Proof.
  intros Hn Hr Hrn Hprimes. induction Hprimes as [| [q w] rest Hq Hrest IH]; intros Hcheck.
  - cbn. apply Z.divide_1_l.
  - cbn [pocklington] in Hcheck.
    apply andb_true_iff in Hcheck as [Hcheck Htail].
    apply andb_true_iff in Hcheck as [Hcheck Hcop%Z.eqb_eq].
    apply andb_true_iff in Hcheck as [Hcheck Hgcd%Z.eqb_eq].
    apply andb_true_iff in Hcheck as [Hdiv%Z.eqb_eq Hpow%Z.eqb_eq].
    rewrite Zpow_mod_correct in Hpow, Hgcd by lia.
    cbn [fst] in Hq. specialize (IH Htail).
    assert (Hqr : (q | r - 1)) by (apply (pocklington_step n q w r); assumption).
    cbn [map fst product fold_right]. fold (product (map fst rest)).
    destruct IH as [k Hk]. rewrite Hk in *.
    apply Z.mul_divide_mono_r.
    apply Z.gauss with (m := product (map fst rest)); [| exact Hcop].
    rewrite Z.mul_comm. exact Hqr.
Qed.

Theorem pocklington_prime (n : Z) (cert : list (Z * Z)) :
  Forall (fun c => Z.prime (fst c)) cert ->
  pocklington_certificate n cert = true -> Z.prime n.
Proof.
  intros Hprimes Hcert. unfold pocklington_certificate in Hcert. cbv zeta in Hcert.
  remember (product (map fst cert)) as F eqn:HF0.
  apply andb_true_iff in Hcert as [Hcert Hsq%Z.ltb_lt].
  apply andb_true_iff in Hcert as [Hcert HFpos%Z.ltb_lt].
  apply andb_true_iff in Hcert as [Hn%Z.ltb_lt Hcheck].
  assert (Hbig : forall d, 1 < d -> (d | n) -> F + 1 <= d).
  { intros d Hd Hdn. destruct (prime_divisor d Hd) as (r & Hr & Hrd).
    pose proof (Z.prime_ge_2 _ Hr).
    assert (Hrn : (r | n)) by (eapply Z.divide_trans; eassumption).
    pose proof (pocklington_divides n r cert Hn Hr Hrn Hprimes Hcheck) as HF. rewrite <- HF0 in HF.
    apply Z.divide_pos_le in HF; [| lia].
    apply Z.divide_pos_le in Hrd; lia. }
  split; [exact Hn |]. intros m Hm [c Hc].
  assert (Hcn : 1 < c < n) by nia.
  pose proof (Hbig m ltac:(lia) ltac:(exists c; exact Hc)).
  pose proof (Hbig c ltac:(lia) ltac:(exists m; lia)).
  nia.
Qed.

(** ** The moduli of the two curves

    Each prime rests on prime factors of its predecessor; the smallest are
    checked by trial division. *)

Ltac by_trial_division := apply trial_division_prime; vm_cast_no_check (eq_refl true).

Ltac by_pocklington cert :=
  apply (pocklington_prime _ cert);
  [ repeat (apply Forall_cons; [cbn [fst]; assumption |]); apply Forall_nil
  | vm_cast_no_check (eq_refl true) ].

Lemma prime_2473 : Z.prime 2473.
Proof. by_trial_division. Qed.

Lemma prime_2683 : Z.prime 2683.
Proof. by_trial_division. Qed.

Lemma prime_8473813 : Z.prime 8473813.
Proof. by_trial_division. Qed.

Lemma prime_8413201 : Z.prime 8413201.
Proof. by_trial_division. Qed.

Lemma prime_11393611 : Z.prime 11393611.
Proof. by_trial_division. Qed.

Lemma prime_16189543961 : Z.prime 16189543961.
Proof.
  pose proof prime_2473; pose proof prime_2683.
  by_pocklington [(2473, 6); (2683, 6)].
Qed.

Lemma prime_138580737803 : Z.prime 138580737803.
Proof. pose proof prime_8473813. by_pocklington [(8473813, 2)]. Qed.

Lemma prime_10489845818524887021689201254173392444641 :
  Z.prime 10489845818524887021689201254173392444641.
Proof.
  pose proof prime_138580737803; pose proof prime_16189543961.
  by_pocklington [(138580737803, 13); (16189543961, 13)].
Qed.

Lemma prime_252396031 : Z.prime 252396031.
Proof. pose proof prime_8413201. by_pocklington [(8413201, 3)]. Qed.

Lemma prime_455827231987 : Z.prime 455827231987.
Proof. pose proof prime_252396031. by_pocklington [(252396031, 2)]. Qed.

Lemma prime_5933177618131140283 : Z.prime 5933177618131140283.
Proof. pose proof prime_455827231987. by_pocklington [(455827231987, 2)]. Qed.

Lemma prime_288626509448065367648032903 : Z.prime 288626509448065367648032903.
Proof. pose proof prime_5933177618131140283. by_pocklington [(5933177618131140283, 6)]. Qed.

(** 2^192 - 2^32 - 2^12 - 2^8 - 2^7 - 2^6 - 2^3 - 1 *)
Lemma prime_secp192k1 : Z.prime 6277101735386680763835789423207666416102355444459739541047.
Proof.
  pose proof prime_10489845818524887021689201254173392444641.
  by_pocklington [(10489845818524887021689201254173392444641, 3)].
Qed.

(** 2^192 - 2^64 - 1 *)
Lemma prime_secp192r1 : Z.prime 6277101735386680763835789423207666416083908700390324961279.
Proof.
  pose proof prime_288626509448065367648032903; pose proof prime_11393611.
  by_pocklington [(288626509448065367648032903, 11); (11393611, 11)].
Qed.

(** * The two curves *)

Lemma prime_get_secp192k1_curve : Z.prime (prime get_secp192k1_curve).
Proof. exact prime_secp192k1. Qed.

Lemma prime_get_secp192r1_curve : Z.prime (prime get_secp192r1_curve).
Proof. exact prime_secp192r1. Qed.

Lemma key_agreement_checked (ec : Curve) (uA uB : list Byte.byte) :
  Z.prime (prime ec) -> curve_checks ec = true ->
  exists secret,
    get_secret (gen_key_pair_on ec uA) (public (gen_key_pair_on ec uB)) = Returned secret
    /\ get_secret (gen_key_pair_on ec uB) (public (gen_key_pair_on ec uA)) = Returned secret.
Proof.
  intros Hprime Hchecks. unfold curve_checks in Hchecks.
  repeat match goal with
         | H : _ && _ = true |- _ => apply andb_true_iff in H; destruct H
         | H : (_ <=? _) = true |- _ => apply Z.leb_le in H
         | H : (_ <? _) = true |- _ => apply Z.ltb_lt in H
         | H : negb _ = true |- _ => apply negb_true_iff in H
         | H : (_ =? _) = false |- _ => apply Z.eqb_neq in H
         end.
  apply key_agreement_on; unfold field_point, in_field; auto.
Qed.

Lemma curve_of_prime (curve : Curves) : Z.prime (prime (curve_of curve)).
Proof.
  destruct curve; [exact prime_get_secp192k1_curve | exact prime_get_secp192r1_curve].
Qed.

Lemma curve_of_checks (curve : Curves) : curve_checks (curve_of curve) = true.
Proof. destruct curve; vm_compute; reflexivity. Qed.

(** C1. Two key pairs generated on the same curve, whatever random bytes
    each was drawn from, derive the same secret string from each other's
    public key: [get_secret(alice, bob->public)] and
    [get_secret(bob, alice->public)] return identical strings. *)
Theorem ecdh_agreement (curve : Curves) (urandom_alice urandom_bob : list Byte.byte) :
  let alice := gen_key_pair curve urandom_alice in
  let bob := gen_key_pair curve urandom_bob in
  exists secret,
    get_secret alice (public bob) = Returned secret
    /\ get_secret bob (public alice) = Returned secret.
Proof.
  cbv zeta. unfold gen_key_pair.
  apply key_agreement_checked; [apply curve_of_prime | apply curve_of_checks].
Qed.

(** * The remaining claims *)

(** ** C2 *)

(** C2 (defect of the code). [prime_field_div(res, a, b, p)] should set
    [res] to [a * b^(-1) mod p], so that [prime_field_mul] of
    [prime_field_div(1, a, p)] and [a] is 1.  The code returns 0: in the
    field of 7 elements 3 / 2 is 3 * 4 = 5 and 1 / 3 times 3 is 1, and the
    code gives 0 for both (as it does on every field element, see
    [prime_field_div_in_field_zero]). *)
Theorem prime_field_div_is_not_a_quotient :
  prime_field_div 3 2 7 = 0
  /\ (2 * 4) mod 7 = 1 /\ (3 * 4) mod 7 = 5
  /\ prime_field_mul (prime_field_div 1 3 7) 3 7 = 0.
Proof. repeat split; vm_compute; reflexivity. Qed.

(** ** C4 and C10 *)

Lemma point_add_equal_x (P Q : Point) (ec : Curve) :
  is_identity P = false -> is_identity Q = false -> x P = x Q ->
  point_add P Q ec = create_point.
Proof.
  unfold is_identity, point_add. intros -> -> ->. rewrite Z.eqb_refl. reflexivity.
Qed.

Lemma point_neg_not_identity (P : Point) (ec : Curve) :
  field_point (prime ec) P -> is_identity P = false -> is_identity (point_neg P ec) = false.
Proof.
  unfold field_point, in_field, is_identity, point_neg; cbn [x y].
  intros [Hx Hy] HP. apply andb_false_iff in HP. apply andb_false_iff.
  destruct HP as [HP | HP]; [left; exact HP | right].
  apply Z.eqb_neq in HP. apply Z.eqb_neq. intros Hz.
  apply Z.mod_divide in Hz; [| lia]. apply Z.divide_opp_r in Hz.
  apply Z.divide_pos_le in Hz; lia.
Qed.

(** C4. For two points that are not the identity (0,0) and have equal
    x-coordinates, [point_add] returns the identity instead of applying the
    chord formula; in particular [point_add(P, -P, curve)] is the identity
    for every field point [P] other than the identity, where -P is
    (Px, -Py mod p). *)
Theorem point_add_opposite (ec : Curve) (P : Point) :
  (forall Q, is_identity P = false -> is_identity Q = false -> x P = x Q ->
     point_add P Q ec = create_point)
  /\ (field_point (prime ec) P -> is_identity P = false ->
      point_add P (point_neg P ec) ec = create_point).
Proof.
  split.
  - intros Q. apply point_add_equal_x.
  - intros HP Hid. apply point_add_equal_x;
      [exact Hid | apply point_neg_not_identity; assumption | reflexivity].
Qed.

Lemma point_add_opposite_witness :
  let ec := get_secp192k1_curve in
  let P := G ec in
  let Q := point_neg P ec in
  is_identity P = false /\ is_identity Q = false /\ x P = x Q
  /\ field_point (prime ec) P
  /\ point_add P Q ec = create_point
  /\ point_add P (point_neg P ec) ec = create_point.
Proof.
  cbv zeta.
  assert (HP : is_identity (G get_secp192k1_curve) = false) by (vm_compute; reflexivity).
  assert (HQ : is_identity (point_neg (G get_secp192k1_curve) get_secp192k1_curve) = false)
    by (vm_compute; reflexivity).
  assert (Hx : x (G get_secp192k1_curve)
               = x (point_neg (G get_secp192k1_curve) get_secp192k1_curve)) by reflexivity.
  assert (HF : field_point (prime get_secp192k1_curve) (G get_secp192k1_curve))
    by (unfold field_point, in_field; vm_compute; repeat split; congruence).
  refine (conj HP (conj HQ (conj Hx (conj HF (conj _ _))))).
  - exact (proj1 (point_add_opposite get_secp192k1_curve (G get_secp192k1_curve))
             _ HP HQ Hx).
  - exact (proj2 (point_add_opposite get_secp192k1_curve (G get_secp192k1_curve)) HF HP).
Defined.

(** C10. For every point [P] other than the identity (0,0),
    [point_add(P, P, curve)] returns the identity and not the double of
    [P]: the test on the x-coordinates does not tell [P] from -P. *)
Theorem point_add_same_point (P : Point) (ec : Curve) :
  is_identity P = false -> point_add P P ec = create_point.
Proof. intros HP. apply point_add_equal_x; [exact HP | exact HP | reflexivity]. Qed.

Lemma point_add_same_point_witness :
  is_identity (G get_secp192k1_curve) = false
  /\ point_add (G get_secp192k1_curve) (G get_secp192k1_curve) get_secp192k1_curve
     = create_point.
Proof.
  assert (HP : is_identity (G get_secp192k1_curve) = false) by (vm_compute; reflexivity).
  split; [exact HP | exact (point_add_same_point _ get_secp192k1_curve HP)].
Defined.

(** ** C3 *)

Lemma binary_digit_testbit (n : Z) :
  Ascii.eqb (digit_char (n mod 2)) "1"%char = Z.testbit n 0.
Proof.
  rewrite digit_char_is_one by (apply Z.mod_pos_bound; lia).
  rewrite Z.bit0_odd, Zmod_odd. destruct (Z.odd n); reflexivity.
Qed.

(** The loop over the characters of the binary string visits the bits of
    the number from the least significant one. *)
Lemma digits_lsb_zero (fuel : nat) (base : Z) : digits_lsb fuel base 0 = [].
Proof. destruct fuel; reflexivity. Qed.

Lemma digits_lsb_nonzero (fuel : nat) (base n : Z) :
  n <> 0 -> digits_lsb (S fuel) base n = n mod base :: digits_lsb fuel base (n / base).
Proof.
  intros Hn. cbn [digits_lsb]. destruct (Z.eqb_spec n 0); [contradiction | reflexivity].
Qed.

Lemma scalar_mult_loop_bits (k : Z) (ec : Curve) (cnt : nat) :
  forall n i acc running fuel,
    0 < n -> Z.log2 n = Z.of_nat cnt -> 0 <= i -> Z.shiftr k i = n -> (cnt < fuel)%nat ->
    scalar_mult_loop (map digit_char (digits_lsb fuel 2 n)) acc running ec
    = double_and_add (S cnt) i k acc running ec.
Proof.
  induction cnt as [| cnt IH]; intros n i acc running fuel Hn Hlog Hi Hshift Hfuel;
    (destruct fuel as [| fuel]; [lia |]);
    rewrite digits_lsb_nonzero, map_cons, scalar_mult_loop_cons, double_and_add_succ by lia;
    rewrite binary_digit_testbit, <- Hshift, Z.shiftr_spec, Z.add_0_l, Hshift by lia.
  - assert (n = 1) as ->.
    { destruct (Z.log2_spec n Hn) as [_ Hup]. rewrite Hlog in Hup. cbn in Hup. lia. }
    replace (1 / 2) with 0 by reflexivity. rewrite digits_lsb_zero. reflexivity.
  - assert (Hhalf : Z.shiftr k (i + 1) = n / 2).
    { rewrite <- Hshift, <- (Z.shiftr_shiftr k i 1), Z.shiftr_div_pow2 by lia. reflexivity. }
    assert (Hlog2 : Z.log2 (n / 2) = Z.of_nat cnt).
    { change (n / 2) with (n / 2 ^ 1). rewrite <- Z.shiftr_div_pow2, Z.log2_shiftr by lia.
      lia. }
    assert (Hpos : 0 < n / 2).
    { destruct (Z.log2_spec n Hn) as [Hlow _]. rewrite Hlog in Hlow.
      rewrite Nat2Z.inj_succ, Z.pow_succ_r in Hlow by lia.
      assert (0 < 2 ^ Z.of_nat cnt) by (apply Z.pow_pos_nonneg; lia).
      apply Z.div_str_pos. lia. }
    apply IH; [exact Hpos | exact Hlog2 | lia | exact Hhalf | lia].
Qed.

(** C3, as the code has it.  [scalar_mult(P, k, curve)] for [k >= 0] is the
    double-and-add sum: with an accumulator that starts at the identity and
    a running copy of [P], for each bit of [k] from the least significant
    one the running copy is added to the accumulator by [point_add] if the
    bit is set and is then doubled by [point_double]. *)
Theorem scalar_mult_is_double_and_add (P : Point) (k : Z) (ec : Curve) :
  0 <= k -> scalar_mult P k ec = scalar_mult_ref P k ec.
Proof.
  intros Hk. unfold scalar_mult, scalar_mult_ref; cbv zeta.
  rewrite copy_point_id, rev_mpz_get_str.
  destruct (Z.eqb_spec k 0) as [-> | Hnz]; [reflexivity |].
  destruct (Z.ltb_spec k 0); [lia |].
  rewrite app_nil_r, Z.abs_eq by lia. unfold digits_of, digits_fuel.
  apply scalar_mult_loop_bits;
    [lia | rewrite Z2Nat.id by apply Z.log2_nonneg; reflexivity | lia | apply Z.shiftr_0_r | lia].
Qed.

Lemma scalar_mult_is_double_and_add_witness :
  let ec := get_secp192k1_curve in
  0 <= 5 /\ scalar_mult (G ec) 5 ec = scalar_mult_ref (G ec) 5 ec.
Proof.
  cbv zeta. assert (H5 : 0 <= 5) by lia.
  exact (conj H5 (scalar_mult_is_double_and_add
                    (G get_secp192k1_curve) 5 get_secp192k1_curve H5)).
Defined.

(** The naive reference of C3 fails at [k = 2] for the generator of
    secp192k1, a point of the curve that is not the identity:
    [point_add(G, G)] is the identity while [scalar_mult(G, 2)] is
    [point_double(G)]. *)
Lemma scalar_mult_differs_from_naive :
  let ec := get_secp192k1_curve in
  is_identity (G ec) = false /\ on_curve (G ec) ec = true /\ 1 <= 2 < order ec
  /\ naive_scalar_mult (G ec) 2 ec = create_point
  /\ scalar_mult (G ec) 2 ec = point_double (G ec) ec
  /\ scalar_mult (G ec) 2 ec <> naive_scalar_mult (G ec) 2 ec.
Proof.
  cbv zeta. repeat split; try (vm_compute; reflexivity); try (vm_compute; congruence).
Qed.

(** ** C5 *)

(** C5, as the code has it.  [point_double] has no case of its own for
    [Py = 0]: on a field point with [Py = 0] it hands the divisor 0 to
    [prime_field_div] and returns the point the tangent formula gives for
    the slope [s] that comes back, (s^2 - 2 Px, s (Px - Rx) - Py) mod p. *)
Theorem point_double_y_zero (ec : Curve) (P : Point) :
  1 < prime ec -> in_field (prime ec) (a ec) -> field_point (prime ec) P -> y P = 0 ->
  let s := prime_field_div ((3 * (x P * x P) + a ec) mod prime ec) 0 (prime ec) in
  let r_x := (s * s - 2 * x P) mod prime ec in
  point_double P ec = {| x := r_x; y := (s * (x P - r_x) - y P) mod prime ec |}.
Proof.
  intros Hp Ha HP Hy. cbv zeta. rewrite point_double_formula by assumption.
  unfold tangent_slope, slope_point; cbv zeta. rewrite Hy, Z.mul_0_r, Zmod_0_l.
  set (s := prime_field_div _ 0 _).
  replace (s * s - x P - x P) with (s * s - 2 * x P) by ring. reflexivity.
Qed.

Lemma point_double_y_zero_witness :
  let ec := small_curve in
  let P := {| x := 6; y := 0 |} in
  1 < prime ec /\ in_field (prime ec) (a ec) /\ field_point (prime ec) P /\ y P = 0
  /\ let s := prime_field_div ((3 * (x P * x P) + a ec) mod prime ec) 0 (prime ec) in
     let r_x := (s * s - 2 * x P) mod prime ec in
     point_double P ec = {| x := r_x; y := (s * (x P - r_x) - y P) mod prime ec |}.
Proof.
  cbv zeta.
  assert (Hp : 1 < prime small_curve) by (cbn; lia).
  assert (Ha : in_field (prime small_curve) (a small_curve)) by (unfold in_field; cbn; lia).
  assert (HP : field_point (prime small_curve) {| x := 6; y := 0 |})
    by (unfold field_point, in_field; cbn; lia).
  assert (Hy : y {| x := 6; y := 0 |} = 0) by reflexivity.
  exact (conj Hp (conj Ha (conj HP (conj Hy
           (point_double_y_zero small_curve {| x := 6; y := 0 |} Hp Ha HP Hy))))).
Defined.

(** (6,0) is a point of the small curve, not the identity, with [Py = 0];
    [point_double] returns (2,0) for it, not the identity. *)
Lemma double_of_two_torsion_point :
  let P := {| x := 6; y := 0 |} in
  on_curve P small_curve = true /\ is_identity P = false /\ y P mod prime small_curve = 0
  /\ point_double P small_curve = {| x := 2; y := 0 |}
  /\ point_double P small_curve <> create_point.
Proof.
  cbv zeta. repeat split; try (vm_compute; reflexivity). vm_compute; congruence.
Qed.

(** ** C6 *)

(** C6, as the code has it.  [prime_field_div] has no error to report: with
    a divisor congruent to 0, as with any other, its loop ends and it
    returns a value, a field element when [a] is one. *)
Theorem prime_field_div_zero_divisor (n m p : Z) :
  m mod p = 0 ->
  exists res, prime_field_div_run n m p = Returned res
              /\ (1 < p -> in_field p n -> in_field p res).
Proof.
  intros _. unfold prime_field_div_run.
  destruct (prime_field_div_loop_ends n m p) as (st & Hst & _). rewrite Hst.
  eexists; split; [reflexivity |]. intros Hp Hn. apply prime_field_mul_in_field; assumption.
Qed.

Lemma prime_field_div_zero_divisor_witness :
  0 mod 7 = 0
  /\ exists res, prime_field_div_run 3 0 7 = Returned res
                 /\ (1 < 7 -> in_field 7 3 -> in_field 7 res).
Proof.
  assert (Hm : 0 mod 7 = 0) by reflexivity.
  exact (conj Hm (prime_field_div_zero_divisor 3 0 7 Hm)).
Defined.

(** In the field of 7 elements, dividing 3 by 0 returns 0 and raises
    nothing. *)
Lemma prime_field_div_by_zero_returns :
  0 mod 7 = 0
  /\ prime_field_div_run 3 0 7 = Returned 0
  /\ prime_field_div_run 3 0 7 <> Raised DivisionByZero.
Proof. repeat split; try (vm_compute; reflexivity). vm_compute; discriminate. Qed.

(** ** C7 *)

Lemma str_to_point_drops_odd_char (s : str) (c : ascii) :
  Nat.even (List.length s) = true -> str_to_point (s ++ [c]) = str_to_point s.
Proof.
  intros Heven. apply Nat.even_spec in Heven. destruct Heven as [n Hn].
  unfold str_to_point; cbv zeta. rewrite length_app. cbn [List.length].
  assert (Hdiv1 : ((List.length s + 1) / 2 = n)%nat).
  { rewrite Hn. replace (2 * n + 1)%nat with (1 + n * 2)%nat by lia.
    rewrite Nat.div_add by lia. reflexivity. }
  assert (Hdiv2 : (List.length s / 2 = n)%nat).
  { rewrite Hn, Nat.mul_comm. apply Nat.div_mul; lia. }
  rewrite Hdiv1, Hdiv2.
  destruct (Z.ltb_spec (Z.of_nat n - 1) 0); [reflexivity |].
  assert (Hx : map (fun i => char_at (s ++ [c]) (i + 2)) (seq 0 (Z.to_nat (Z.of_nat n - 1)))
               = map (fun i => char_at s (i + 2)) (seq 0 (Z.to_nat (Z.of_nat n - 1)))).
  { apply map_ext_in. intros i Hi%in_seq. unfold char_at. apply app_nth1. lia. }
  assert (Hy : map (fun i => char_at (s ++ [c]) (i + 1 + n)) (seq 0 (Z.to_nat (Z.of_nat n - 1)))
               = map (fun i => char_at s (i + 1 + n)) (seq 0 (Z.to_nat (Z.of_nat n - 1)))).
  { apply map_ext_in. intros i Hi%in_seq. unfold char_at. apply app_nth1. lia. }
  rewrite Hx, Hy. reflexivity.
Qed.

(** C7, as the code has it.  [str_to_point] reports no error.  It returns a
    point for every string of two characters or more, whatever the parity
    of its length and whatever its characters; the last character of a
    string of odd length is not read.  On a shorter string it stores out
    of bounds. *)
Theorem str_to_point_never_fails (s : str) :
  ((2 <= List.length s)%nat -> exists P, str_to_point s = Returned P)
  /\ ((List.length s < 2)%nat -> str_to_point s = Undefined)
  /\ (forall c, Nat.even (List.length s) = true -> str_to_point (s ++ [c]) = str_to_point s).
Proof.
  split; [| split].
  - intros Hlen. unfold str_to_point; cbv zeta.
    assert (1 <= List.length s / 2)%nat by (apply Nat.div_le_lower_bound; lia).
    destruct (Z.ltb_spec (Z.of_nat (List.length s / 2) - 1) 0); [lia |]. eauto.
  - intros Hlen. unfold str_to_point; cbv zeta.
    rewrite Nat.div_small by exact Hlen. reflexivity.
  - intros c. apply str_to_point_drops_odd_char.
Qed.

Lemma str_to_point_never_fails_witness :
  ((2 <= List.length (lit "04ab"))%nat -> exists P, str_to_point (lit "04ab") = Returned P)
  /\ (2 <= List.length (lit "04ab"))%nat
  /\ (List.length (lit "0") < 2)%nat /\ str_to_point (lit "0") = Undefined
  /\ Nat.even (List.length (lit "04ab")) = true
  /\ str_to_point (lit "04ab" ++ ["c"%char]) = str_to_point (lit "04ab").
Proof.
  assert (H2 : (2 <= List.length (lit "04ab"))%nat) by (cbn; lia).
  assert (H1 : (List.length (lit "0") < 2)%nat) by (cbn; lia).
  assert (He : Nat.even (List.length (lit "04ab")) = true) by reflexivity.
  exact (conj (proj1 (str_to_point_never_fails (lit "04ab")))
          (conj H2 (conj H1
            (conj (proj1 (proj2 (str_to_point_never_fails (lit "0"))) H1)
              (conj He (proj2 (proj2 (str_to_point_never_fails (lit "04ab"))) "c"%char He)))))).
Defined.

(** A string of odd length is decoded to a point, with its last character
    ignored, and so is a string with characters that are no hexadecimal
    digits, to the point (0,0); neither raises an error. *)
Lemma str_to_point_accepts_malformed :
  Nat.odd (List.length (lit "04abc")) = true
  /\ str_to_point (lit "04abc") = Returned {| x := 10; y := 11 |}
  /\ str_to_point (lit "04abc") <> Raised MalformedEncoding
  /\ digit_value "z"%char = Some 35
  /\ str_to_point (lit "04zz") = Returned create_point
  /\ str_to_point (lit "04zz") <> Raised MalformedEncoding.
Proof. repeat split; try (vm_compute; reflexivity); vm_compute; discriminate. Qed.

(** ** C8 *)

(** C8. For every point with non-negative coordinates, so for every valid
    point with coordinates in [0, p), decoding the encoding of the point
    gives the point back, and the encoding is "04" followed by the two
    hexadecimal fields, padded with zeros on the left to the width of the
    longer one. *)
Theorem point_str_round_trip (P : Point) :
  0 <= x P -> 0 <= y P ->
  str_to_point (fst (point_to_str P)) = Returned P
  /\ fst (point_to_str P) = sec1_uncompressed P
  /\ snd (point_to_str P) = List.length (sec1_uncompressed P).
Proof.
  intros Hx Hy. split; [apply point_roundtrip; assumption |].
  pose proof (point_to_str_sec1 P Hx Hy) as Hstr. split; [exact Hstr |].
  rewrite <- Hstr. unfold point_to_str, scalar_to_str.
  repeat match goal with |- context [if ?c then _ else _] => destruct c end; reflexivity.
Qed.

Lemma point_str_round_trip_witness :
  let P := {| x := 255; y := 4097 |} in
  0 <= x P /\ 0 <= y P
  /\ str_to_point (fst (point_to_str P)) = Returned P
  /\ fst (point_to_str P) = sec1_uncompressed P
  /\ snd (point_to_str P) = List.length (sec1_uncompressed P).
Proof.
  cbv zeta.
  assert (Hx : 0 <= x {| x := 255; y := 4097 |}) by (cbn; lia).
  assert (Hy : 0 <= y {| x := 255; y := 4097 |}) by (cbn; lia).
  exact (conj Hx (conj Hy (point_str_round_trip {| x := 255; y := 4097 |} Hx Hy))).
Defined.

(** ** C9 *)

Lemma private_gen_key_pair_on (ec : Curve) (urandom : list Byte.byte) :
  private (gen_key_pair_on ec urandom)
  = mpz_import (fread urandom (Z.to_nat (key_size_bits ec / 8))).
Proof. reflexivity. Qed.

(** C9, as the code has it.  The private scalar of a key pair is the 20
    random bytes read as a big-endian unsigned integer, whatever they are:
    it is below 2^160, hence below the order of the curve, and it is not
    negative; it is 0 when the 20 bytes are. *)
Theorem private_key_range (curve : Curves) (urandom : list Byte.byte) :
  let d := private (gen_key_pair curve urandom) in
  0 <= d < 2 ^ 160 /\ 2 ^ 160 < order (curve_of curve) /\ d < order (curve_of curve).
Proof.
  cbv zeta. unfold gen_key_pair. rewrite private_gen_key_pair_on.
  assert (Hbytes : Z.to_nat (key_size_bits (curve_of curve) / 8) = 20%nat)
    by (destruct curve; reflexivity).
  rewrite Hbytes.
  pose proof (mpz_import_bounds (fread urandom 20)) as Hb. rewrite length_fread in Hb.
  change (8 * Z.of_nat 20) with 160 in Hb.
  assert (Horder : 2 ^ 160 < order (curve_of curve)) by (destruct curve; vm_compute; reflexivity).
  repeat split; lia.
Qed.

(** Twenty random bytes that are all 0 give the private scalar 0, which is
    not in the range 0 < d < n. *)
Lemma private_key_zero :
  let d := private (gen_key_pair SECP_192_K1 (repeat Byte.x00 20)) in
  d = 0 /\ ~ (0 < d < order (curve_of SECP_192_K1)).
Proof.
  cbv zeta. unfold gen_key_pair. rewrite private_gen_key_pair_on.
  assert (Hd : mpz_import (fread (repeat Byte.x00 20)
                 (Z.to_nat (key_size_bits (curve_of SECP_192_K1) / 8))) = 0)
    by (vm_compute; reflexivity).
  rewrite Hd. split; [reflexivity | lia].
Qed.

(** * Further properties of the code *)

(** ** primefield.h *)

(** X1. On all integers and a positive modulus, [prime_field_add] returns a
    number congruent to [a + b]; it corrects by one [p] only, so the result
    is in [0, p) exactly when [a + b] is in [-p, 2p). *)
Theorem prime_field_add_one_correction (n m p : Z) :
  0 < p ->
  (prime_field_add n m p) mod p = (n + m) mod p
  /\ (0 <= prime_field_add n m p < p <-> - p <= n + m < 2 * p).
Proof.
  intros Hp. unfold prime_field_add; cbv zeta.
  destruct (Z.geb_spec (n + m) p) as [Hge | Hlt]; [| destruct (Z.ltb_spec (n + m) 0)].
  - split; [| lia].
    replace (n + m - p) with (n + m + (-1) * p) by ring. apply Z_mod_plus_full.
  - split; [| lia].
    replace (n + m + p) with (n + m + 1 * p) by ring. apply Z_mod_plus_full.
  - split; [reflexivity | lia].
Qed.

Lemma prime_field_add_one_correction_witness :
  0 < 7
  /\ (prime_field_add 5 4 7) mod 7 = (5 + 4) mod 7
  /\ (0 <= prime_field_add 5 4 7 < 7 <-> - 7 <= 5 + 4 < 2 * 7).
Proof.
  assert (Hp : 0 < 7) by lia.
  exact (conj Hp (prime_field_add_one_correction 5 4 7 Hp)).
Defined.

(** X2. On field elements, [prime_field_sub] undoes [prime_field_add] and
    [prime_field_add] undoes [prime_field_sub]. *)
Theorem prime_field_add_sub_round_trip (n m p : Z) :
  in_field p n -> in_field p m ->
  prime_field_sub (prime_field_add n m p) m p = n
  /\ prime_field_add (prime_field_sub n m p) m p = n.
Proof.
  unfold in_field, prime_field_sub, prime_field_add; intros Hn Hm; cbv zeta.
  split.
  - destruct (Z.geb_spec (n + m) p), (Z.ltb_spec (n + m) 0);
      repeat match goal with
             | |- context [?u >=? ?v] => destruct (Z.geb_spec u v)
             | |- context [?u <? ?v] => destruct (Z.ltb_spec u v)
             end; lia.
  - destruct (Z.geb_spec (n + - m) p), (Z.ltb_spec (n + - m) 0);
      repeat match goal with
             | |- context [?u >=? ?v] => destruct (Z.geb_spec u v)
             | |- context [?u <? ?v] => destruct (Z.ltb_spec u v)
             end; lia.
Qed.

Lemma prime_field_add_sub_round_trip_witness :
  in_field 7 5 /\ in_field 7 4
  /\ prime_field_sub (prime_field_add 5 4 7) 4 7 = 5
  /\ prime_field_add (prime_field_sub 5 4 7) 4 7 = 5.
Proof.
  assert (H5 : in_field 7 5) by (unfold in_field; lia).
  assert (H4 : in_field 7 4) by (unfold in_field; lia).
  exact (conj H5 (conj H4 (prime_field_add_sub_round_trip 5 4 7 H5 H4))).
Defined.

(** X3. For a field element [a] and any integer [b], [prime_field_mul] is
    the product of [a] and the absolute value of [b] in the field: the minus
    sign of the binary string of [b] is visited as a digit that is not 1.
    On two field elements it is commutative. *)
Theorem prime_field_mul_product (n m p : Z) :
  1 < p -> in_field p n ->
  prime_field_mul n m p = (n * Z.abs m) mod p
  /\ in_field p (prime_field_mul n m p)
  /\ prime_field_mul n (- m) p = prime_field_mul n m p
  /\ (in_field p m -> prime_field_mul n m p = prime_field_mul m n p).
Proof.
  intros Hp Hn. repeat split.
  - apply prime_field_mul_mod; assumption.
  - apply prime_field_mul_in_field; assumption.
  - apply prime_field_mul_in_field; assumption.
  - rewrite !prime_field_mul_mod, Z.abs_opp by assumption. reflexivity.
  - intros Hm. rewrite !prime_field_mul_mod by assumption.
    unfold in_field in *. rewrite !Z.abs_eq by lia. f_equal; ring.
Qed.

Lemma prime_field_mul_product_witness :
  1 < 7 /\ in_field 7 3 /\ in_field 7 5
  /\ prime_field_mul 3 5 7 = (3 * Z.abs 5) mod 7
  /\ in_field 7 (prime_field_mul 3 5 7)
  /\ prime_field_mul 3 (- 5) 7 = prime_field_mul 3 5 7
  /\ prime_field_mul 3 5 7 = prime_field_mul 5 3 7.
Proof.
  assert (Hp : 1 < 7) by lia.
  assert (H3 : in_field 7 3) by (unfold in_field; lia).
  assert (H5 : in_field 7 5) by (unfold in_field; lia).
  pose proof (prime_field_mul_product 3 5 7 Hp H3) as (Hv & Hf & Hs & Hc).
  exact (conj Hp (conj H3 (conj H5 (conj Hv (conj Hf (conj Hs (Hc H5))))))).
Defined.

(** X4. On a field element, [prime_field_sq] is the square in the field,
    which is also what [prime_field_mul] gives for the element and itself. *)
Theorem prime_field_sq_square (n p : Z) :
  1 < p -> in_field p n ->
  prime_field_sq n p = (n * n) mod p /\ prime_field_sq n p = prime_field_mul n n p.
Proof.
  intros Hp Hn. rewrite prime_field_sq_mod, prime_field_mul_mod by assumption.
  unfold in_field in Hn. rewrite Z.abs_eq by lia. split; reflexivity.
Qed.

Lemma prime_field_sq_square_witness :
  1 < 7 /\ in_field 7 3
  /\ prime_field_sq 3 7 = (3 * 3) mod 7 /\ prime_field_sq 3 7 = prime_field_mul 3 3 7.
Proof.
  assert (Hp : 1 < 7) by lia.
  assert (H3 : in_field 7 3) by (unfold in_field; lia).
  exact (conj Hp (conj H3 (prime_field_sq_square 3 7 Hp H3))).
Defined.

(** Two states of the loop of [prime_field_div] that differ in [copy_b]
    at most. *)
Lemma prime_field_div_loop_copy_b (n : Z) (fuel : nat) :
  forall s t u v cb cb' cp,
    option_map ds_u (prime_field_div_loop fuel n (mk_div_state s t u v cb cp))
    = option_map ds_u (prime_field_div_loop fuel n (mk_div_state s t u v cb' cp)).
Proof.
  induction fuel as [| fuel IH]; intros s t u v cb cb' cp;
    cbn [prime_field_div_loop ds_copy_p]; destruct (cp =? 0); reflexivity.
Qed.

(** X5. The result of [prime_field_div] does not depend on the divisor:
    the loop divides [a] by [copy_p] and never reads [copy_b]. *)
Theorem prime_field_div_ignores_divisor (n m m' p : Z) :
  prime_field_div n m p = prime_field_div n m' p.
Proof.
  unfold prime_field_div, prime_field_div_run, prime_field_div_init.
  pose proof (prime_field_div_loop_copy_b n (prime_field_div_fuel n p) 1 0 0 1 m m' p) as Hu.
  destruct (prime_field_div_loop (prime_field_div_fuel n p) n (mk_div_state 1 0 0 1 m p));
    destruct (prime_field_div_loop (prime_field_div_fuel n p) n (mk_div_state 1 0 0 1 m' p));
    cbn [option_map] in Hu; try discriminate; [| reflexivity].
  injection Hu as ->. reflexivity.
Qed.

(** ** ecdh.c: point arithmetic *)

(** X6. The identity (0,0) is neutral for [point_add] on both sides,
    whatever the other point is. *)
Theorem point_add_identity (P : Point) (ec : Curve) :
  point_add create_point P ec = P /\ point_add P create_point ec = P.
Proof.
  split.
  - unfold point_add. cbn [create_point x y Z.eqb andb]. apply copy_point_id.
  - unfold point_add. cbn [create_point x y Z.eqb andb].
    destruct ((x P =? 0) && (y P =? 0)) eqn:HP; [| apply copy_point_id].
    apply andb_true_iff in HP as [Hx%Z.eqb_eq Hy%Z.eqb_eq].
    destruct P as [px py]; cbn [x y] in *; subst. reflexivity.
Qed.

Lemma point_add_field_point (P Q : Point) (ec : Curve) :
  1 < prime ec -> field_point (prime ec) P -> field_point (prime ec) Q ->
  field_point (prime ec) (point_add P Q ec).
Proof.
  intros Hp HP HQ.
  destruct (is_identity P) eqn:HiP.
  { unfold point_add. unfold is_identity in HiP. rewrite HiP, copy_point_id. exact HQ. }
  destruct (is_identity Q) eqn:HiQ.
  { unfold point_add. unfold is_identity in HiP, HiQ. rewrite HiP, HiQ, copy_point_id. exact HP. }
  destruct (Z.eq_dec (x P) (x Q)) as [Hx | Hx].
  - rewrite point_add_equal_x by assumption.
    unfold field_point, in_field, create_point; cbn [x y]. lia.
  - rewrite point_add_formula by assumption.
    unfold slope_point, field_point; cbn [x y]. split; apply mod_in_field; exact Hp.
Qed.

Lemma point_double_field_point (P : Point) (ec : Curve) :
  1 < prime ec -> in_field (prime ec) (a ec) -> field_point (prime ec) P ->
  field_point (prime ec) (point_double P ec).
Proof.
  intros Hp Ha HP. rewrite point_double_formula by assumption.
  unfold slope_point, field_point; cbn [x y]. split; apply mod_in_field; exact Hp.
Qed.

(** X7. For two field points that are not the identity and differ in x,
    [point_add] returns the chord formula's point for the slope [s] that
    [prime_field_div] returns for Py - Qy and Px - Qx:
    (s^2 - Px - Qx, s (Px - Rx) - Py), reduced modulo p. *)
Theorem point_add_chord (P Q : Point) (ec : Curve) :
  1 < prime ec -> field_point (prime ec) P -> field_point (prime ec) Q ->
  is_identity P = false -> is_identity Q = false -> x P <> x Q ->
  let s := prime_field_div ((y P - y Q) mod prime ec) ((x P - x Q) mod prime ec) (prime ec) in
  let r_x := (s * s - x P - x Q) mod prime ec in
  point_add P Q ec = {| x := r_x; y := (s * (x P - r_x) - y P) mod prime ec |}.
Proof.
  intros Hp HP HQ HiP HiQ Hx. cbv zeta. rewrite point_add_formula by assumption. reflexivity.
Qed.

Lemma point_add_chord_witness :
  let ec := small_curve in
  let P := {| x := 2; y := 3 |} in
  let Q := {| x := 0; y := 1 |} in
  1 < prime ec /\ field_point (prime ec) P /\ field_point (prime ec) Q
  /\ is_identity P = false /\ is_identity Q = false /\ x P <> x Q
  /\ let s := prime_field_div ((y P - y Q) mod prime ec) ((x P - x Q) mod prime ec) (prime ec) in
     let r_x := (s * s - x P - x Q) mod prime ec in
     point_add P Q ec = {| x := r_x; y := (s * (x P - r_x) - y P) mod prime ec |}.
Proof.
  cbv zeta.
  assert (Hp : 1 < prime small_curve) by (cbn; lia).
  assert (HP : field_point (prime small_curve) {| x := 2; y := 3 |})
    by (unfold field_point, in_field; cbn; lia).
  assert (HQ : field_point (prime small_curve) {| x := 0; y := 1 |})
    by (unfold field_point, in_field; cbn; lia).
  assert (HiP : is_identity {| x := 2; y := 3 |} = false) by reflexivity.
  assert (HiQ : is_identity {| x := 0; y := 1 |} = false) by reflexivity.
  assert (Hx : x {| x := 2; y := 3 |} <> x {| x := 0; y := 1 |}) by (cbn; lia).
  exact (conj Hp (conj HP (conj HQ (conj HiP (conj HiQ (conj Hx
           (point_add_chord _ _ small_curve Hp HP HQ HiP HiQ Hx))))))).
Defined.

(** X8. For every field point, the identity included, [point_double]
    returns the tangent formula's point for the slope [s] that
    [prime_field_div] returns for 3 Px^2 + a and 2 Py:
    (s^2 - 2 Px, s (Px - Rx) - Py), reduced modulo p. *)
Theorem point_double_tangent (P : Point) (ec : Curve) :
  1 < prime ec -> in_field (prime ec) (a ec) -> field_point (prime ec) P ->
  let s := prime_field_div ((3 * (x P * x P) + a ec) mod prime ec)
             ((2 * y P) mod prime ec) (prime ec) in
  let r_x := (s * s - 2 * x P) mod prime ec in
  point_double P ec = {| x := r_x; y := (s * (x P - r_x) - y P) mod prime ec |}.
Proof.
  intros Hp Ha HP. cbv zeta. rewrite point_double_formula by assumption.
  unfold tangent_slope, slope_point; cbv zeta.
  set (s := prime_field_div _ _ _).
  replace (s * s - x P - x P) with (s * s - 2 * x P) by ring. reflexivity.
Qed.

Lemma point_double_tangent_witness :
  let ec := small_curve in
  let P := {| x := 2; y := 3 |} in
  1 < prime ec /\ in_field (prime ec) (a ec) /\ field_point (prime ec) P
  /\ let s := prime_field_div ((3 * (x P * x P) + a ec) mod prime ec)
                ((2 * y P) mod prime ec) (prime ec) in
     let r_x := (s * s - 2 * x P) mod prime ec in
     point_double P ec = {| x := r_x; y := (s * (x P - r_x) - y P) mod prime ec |}.
Proof.
  cbv zeta.
  assert (Hp : 1 < prime small_curve) by (cbn; lia).
  assert (Ha : in_field (prime small_curve) (a small_curve)) by (unfold in_field; cbn; lia).
  assert (HP : field_point (prime small_curve) {| x := 2; y := 3 |})
    by (unfold field_point, in_field; cbn; lia).
  exact (conj Hp (conj Ha (conj HP (point_double_tangent _ small_curve Hp Ha HP)))).
Defined.

(** X9. [point_add] and [point_double] keep the coordinates in [0, p):
    on field points they return a field point. *)
Theorem point_operations_closed (P Q : Point) (ec : Curve) :
  1 < prime ec -> in_field (prime ec) (a ec) ->
  field_point (prime ec) P -> field_point (prime ec) Q ->
  field_point (prime ec) (point_add P Q ec) /\ field_point (prime ec) (point_double P ec).
Proof.
  intros Hp Ha HP HQ. split.
  - apply point_add_field_point; assumption.
  - apply point_double_field_point; assumption.
Qed.

Lemma point_operations_closed_witness :
  let ec := small_curve in
  let P := {| x := 2; y := 3 |} in
  let Q := {| x := 0; y := 1 |} in
  1 < prime ec /\ in_field (prime ec) (a ec)
  /\ field_point (prime ec) P /\ field_point (prime ec) Q
  /\ field_point (prime ec) (point_add P Q ec) /\ field_point (prime ec) (point_double P ec).
Proof.
  cbv zeta.
  assert (Hp : 1 < prime small_curve) by (cbn; lia).
  assert (Ha : in_field (prime small_curve) (a small_curve)) by (unfold in_field; cbn; lia).
  assert (HP : field_point (prime small_curve) {| x := 2; y := 3 |})
    by (unfold field_point, in_field; cbn; lia).
  assert (HQ : field_point (prime small_curve) {| x := 0; y := 1 |})
    by (unfold field_point, in_field; cbn; lia).
  exact (conj Hp (conj Ha (conj HP (conj HQ
           (point_operations_closed _ _ small_curve Hp Ha HP HQ))))).
Defined.

(** ** ecdh.c: scalar multiplication *)

Lemma scalar_mult_loop_nil (res p_copy : Point) (ec : Curve) :
  scalar_mult_loop [] res p_copy ec = res.
Proof. reflexivity. Qed.

Lemma scalar_mult_loop_field_point (ec : Curve) (visited : str) :
  1 < prime ec -> in_field (prime ec) (a ec) ->
  forall res p_copy,
    field_point (prime ec) res -> field_point (prime ec) p_copy ->
    field_point (prime ec) (scalar_mult_loop visited res p_copy ec).
Proof.
  intros Hp Ha. induction visited as [| c rest IH]; intros res p_copy Hres Hcopy.
  - rewrite scalar_mult_loop_nil. exact Hres.
  - rewrite scalar_mult_loop_cons. apply IH.
    + destruct (Ascii.eqb c "1"%char); [apply point_add_field_point |]; assumption.
    + apply point_double_field_point; assumption.
Qed.

Lemma point_double_identity (ec : Curve) :
  1 < prime ec -> in_field (prime ec) (a ec) -> point_double create_point ec = create_point.
Proof.
  intros Hp Ha. rewrite point_double_formula;
    [| exact Hp | exact Ha | unfold field_point, in_field, create_point; cbn [x y]; lia].
  unfold tangent_slope. rewrite prime_field_div_in_field_zero;
    [| exact Hp | apply mod_in_field; exact Hp].
  unfold slope_point, create_point; cbn [x y].
  replace (0 * 0 - 0 - 0) with 0 by ring. rewrite Zmod_0_l.
  replace (0 * (0 - 0) - 0) with 0 by ring. rewrite Zmod_0_l. reflexivity.
Qed.

Lemma scalar_mult_loop_identity (ec : Curve) (visited : str) :
  1 < prime ec -> in_field (prime ec) (a ec) ->
  scalar_mult_loop visited create_point create_point ec = create_point.
Proof.
  intros Hp Ha. induction visited as [| c rest IH]; [apply scalar_mult_loop_nil |].
  rewrite scalar_mult_loop_cons, point_double_identity by assumption.
  destruct (Ascii.eqb c "1"%char); [| exact IH].
  replace (point_add create_point create_point ec) with create_point by reflexivity.
  exact IH.
Qed.

(** X10. [scalar_mult(P, 0, curve)] is the identity for every point [P],
    and [scalar_mult] of the identity is the identity for every scalar. *)
Theorem scalar_mult_identity (P : Point) (k : Z) (ec : Curve) :
  scalar_mult P 0 ec = create_point
  /\ (1 < prime ec -> in_field (prime ec) (a ec) -> scalar_mult create_point k ec = create_point).
Proof.
  split.
  - unfold scalar_mult; cbv zeta.
    replace (rev (mpz_get_str 2 0)) with ["0"%char] by reflexivity.
    rewrite scalar_mult_loop_cons, scalar_mult_loop_nil. reflexivity.
  - intros Hp Ha. unfold scalar_mult; cbv zeta. rewrite copy_point_id.
    apply scalar_mult_loop_identity; assumption.
Qed.

Lemma scalar_mult_identity_witness :
  let ec := get_secp192r1_curve in
  scalar_mult (G ec) 0 ec = create_point
  /\ 1 < prime ec /\ in_field (prime ec) (a ec)
  /\ scalar_mult create_point 11 ec = create_point.
Proof.
  cbv zeta.
  assert (Hp : 1 < prime get_secp192r1_curve) by (vm_compute; reflexivity).
  assert (Ha : in_field (prime get_secp192r1_curve) (a get_secp192r1_curve))
    by (unfold in_field; vm_compute; split; congruence).
  pose proof (scalar_mult_identity (G get_secp192r1_curve) 11 get_secp192r1_curve) as [H0 Hid].
  exact (conj H0 (conj Hp (conj Ha (Hid Hp Ha)))).
Defined.

(** X11. [scalar_mult] keeps the coordinates in [0, p): for a field point
    and any scalar it returns a field point. *)
Theorem scalar_mult_closed (P : Point) (k : Z) (ec : Curve) :
  1 < prime ec -> in_field (prime ec) (a ec) -> field_point (prime ec) P ->
  field_point (prime ec) (scalar_mult P k ec).
Proof.
  intros Hp Ha HP. unfold scalar_mult; cbv zeta. rewrite copy_point_id.
  apply scalar_mult_loop_field_point; try assumption.
  unfold field_point, in_field, create_point; cbn [x y]. lia.
Qed.

Lemma scalar_mult_closed_witness :
  let ec := small_curve in
  let P := {| x := 2; y := 3 |} in
  1 < prime ec /\ in_field (prime ec) (a ec) /\ field_point (prime ec) P
  /\ field_point (prime ec) (scalar_mult P 5 ec).
Proof.
  cbv zeta.
  assert (Hp : 1 < prime small_curve) by (cbn; lia).
  assert (Ha : in_field (prime small_curve) (a small_curve)) by (unfold in_field; cbn; lia).
  assert (HP : field_point (prime small_curve) {| x := 2; y := 3 |})
    by (unfold field_point, in_field; cbn; lia).
  exact (conj Hp (conj Ha (conj HP (scalar_mult_closed _ 5 small_curve Hp Ha HP)))).
Defined.

Lemma scalar_mult_loop_sign (ec : Curve) (visited : str) :
  forall res p_copy,
    scalar_mult_loop (visited ++ ["-"%char]) res p_copy ec
    = scalar_mult_loop (visited ++ []) res p_copy ec.
Proof.
  induction visited as [| c rest IH]; intros res p_copy.
  - cbn [app]. rewrite scalar_mult_loop_cons, !scalar_mult_loop_nil.
    replace (Ascii.eqb "-"%char "1"%char) with false by reflexivity. reflexivity.
  - cbn [app]. rewrite !scalar_mult_loop_cons. apply IH.
Qed.

(** X12. [scalar_mult] does not read the sign of the scalar: the minus
    sign of the binary string is visited as a bit that is not set, after
    all the others. *)
Theorem scalar_mult_ignores_sign (P : Point) (k : Z) (ec : Curve) :
  scalar_mult P (- k) ec = scalar_mult P k ec.
Proof.
  unfold scalar_mult; cbv zeta. rewrite !rev_mpz_get_str, Z.abs_opp.
  destruct (Z.eqb_spec k 0) as [-> | Hk]; [reflexivity |].
  destruct (Z.eqb_spec (- k) 0); [lia |].
  destruct (Z.ltb_spec (- k) 0), (Z.ltb_spec k 0); try lia.
  - apply scalar_mult_loop_sign.
  - symmetry. apply scalar_mult_loop_sign.
Qed.

(** ** primefield.h and ecdh.c: strings *)

Lemma mpz_set_str_hex_negative (ds : list Z) :
  Forall (fun d => 0 <= d < 16) ds -> ds <> [] ->
  mpz_set_str ("-"%char :: map digit_char ds) 16 = Some (- value_msb 16 0 ds).
Proof.
  intros Hds Hne. destruct ds as [| d ds]; [contradiction |].
  pose proof (parse_digits_hex _ Hds 0) as Hparse.
  inversion Hds as [| ? ? Hd _]; subst.
  destruct (hex_digit_char d Hd) as (Hv & _ & _ & _).
  unfold mpz_set_str. cbn [skip_space].
  replace (isspace "-"%char) with false by reflexivity.
  cbn [map] in *. rewrite Hv. destruct (Z.ltb_spec d 16); [| lia].
  rewrite Hparse. reflexivity.
Qed.

(** X13. [str_to_scalar] reads back what [scalar_to_str] wrote, for every
    integer, negative ones included, with return code 0; the length
    [scalar_to_str] reports is the length of its string, which is never
    empty. *)
Theorem scalar_str_round_trip (n : Z) :
  str_to_scalar (fst (scalar_to_str n)) = (n, 0)
  /\ snd (scalar_to_str n) = List.length (fst (scalar_to_str n))
  /\ (1 <= snd (scalar_to_str n))%nat.
Proof.
  unfold scalar_to_str; cbn [fst snd]. split; [| split; [reflexivity |]].
  - destruct (Z.le_gt_cases 0 n) as [Hn | Hn].
    + exact (str_to_scalar_hex_field 0 n Hn).
    + unfold str_to_scalar, mpz_init_set_str, mpz_get_str.
      destruct (Z.eqb_spec n 0); [lia |]. destruct (Z.ltb_spec n 0); [| lia].
      cbn [app]. rewrite <- map_rev.
      rewrite mpz_set_str_hex_negative.
      * rewrite value_msb_rev. fold (digits_of 16 (Z.abs n)).
        rewrite digits_of_value by lia. f_equal. lia.
      * apply Forall_rev, digits_lsb_range. lia.
      * intros Hrev. apply (f_equal (@rev Z)) in Hrev. rewrite rev_involutive in Hrev.
        revert Hrev. apply digits_lsb_nonempty. lia.
  - unfold mpz_get_str. destruct (Z.eqb_spec n 0) as [| Hnz]; [cbn; lia |].
    rewrite length_app, length_rev, length_map.
    assert (Hne : digits_lsb (digits_fuel (Z.abs n)) 16 (Z.abs n) <> [])
      by (apply digits_lsb_nonempty; lia).
    destruct (digits_lsb (digits_fuel (Z.abs n)) 16 (Z.abs n)); [contradiction | cbn; lia].
Qed.

(** X14. [str_to_point] never looks at the two leading characters, and for
    a payload of two fields of equal length it returns the point whose
    coordinates are what [str_to_scalar] reads in each field. *)
Theorem str_to_point_fields (tag fx fy : str) :
  List.length tag = 2%nat -> List.length fx = List.length fy ->
  str_to_point (tag ++ fx ++ fy)
  = Returned {| x := fst (str_to_scalar fx); y := fst (str_to_scalar fy) |}.
Proof.
  intros Htag Hlen. unfold str_to_point; cbv zeta.
  assert (Hall : List.length (tag ++ fx ++ fy) = ((1 + List.length fx) * 2)%nat).
  { rewrite !length_app, Htag, Hlen. lia. }
  rewrite Hall, Nat.div_mul by lia.
  destruct (Z.ltb_spec (Z.of_nat (1 + List.length fx) - 1) 0) as [Hneg | _]; [lia |].
  replace (Z.to_nat (Z.of_nat (1 + List.length fx) - 1)) with (List.length fx) by lia.
  rewrite (copied_segment fx tag fy 2) by (symmetry; exact Htag).
  assert (Hys : map (fun i => char_at (tag ++ fx ++ fy) (i + 1 + (1 + List.length fx)))
                  (seq 0 (List.length fx)) = fy).
  { rewrite Hlen.
    transitivity (map (fun i => char_at ((tag ++ fx) ++ fy ++ []) (i + (2 + List.length fy)))
                    (seq 0 (List.length fy))).
    - apply map_ext. intros i. rewrite app_nil_r, <- app_assoc. f_equal. lia.
    - apply copied_segment. rewrite length_app, Htag, Hlen. reflexivity. }
  rewrite Hys. reflexivity.
Qed.

Lemma str_to_point_fields_witness :
  List.length (lit "02") = 2%nat /\ List.length (lit "0a") = List.length (lit "ff")
  /\ str_to_point (lit "02" ++ lit "0a" ++ lit "ff")
     = Returned {| x := fst (str_to_scalar (lit "0a")); y := fst (str_to_scalar (lit "ff")) |}.
Proof.
  assert (Ht : List.length (lit "02") = 2%nat) by reflexivity.
  assert (Hl : List.length (lit "0a") = List.length (lit "ff")) by reflexivity.
  exact (conj Ht (conj Hl (str_to_point_fields _ _ _ Ht Hl))).
Defined.

(** X15. Two points with non-negative coordinates that [point_to_str]
    writes as the same string are the same point. *)
Theorem point_to_str_injective (P Q : Point) :
  0 <= x P -> 0 <= y P -> 0 <= x Q -> 0 <= y Q ->
  fst (point_to_str P) = fst (point_to_str Q) -> P = Q.
Proof.
  intros HPx HPy HQx HQy Heq.
  pose proof (point_roundtrip P HPx HPy) as HP.
  rewrite Heq, point_roundtrip in HP by assumption.
  injection HP as ->. reflexivity.
Qed.

Lemma point_to_str_injective_witness :
  let P := {| x := 10; y := 255 |} in
  0 <= x P /\ 0 <= y P /\ fst (point_to_str P) = fst (point_to_str P) /\ P = P.
Proof.
  cbv zeta.
  assert (Hx : 0 <= x {| x := 10; y := 255 |}) by (cbn; lia).
  assert (Hy : 0 <= y {| x := 10; y := 255 |}) by (cbn; lia).
  exact (conj Hx (conj Hy (conj eq_refl
           (point_to_str_injective _ _ Hx Hy Hx Hy eq_refl)))).
Defined.

(** ** ecdh.c: curves, key pairs and main *)

(** X16. Both curves the program knows are well formed: the modulus is a
    prime, the coefficients are field elements with 4 a^3 + 27 b^2 not 0 in
    the field, the generator is a field point of the curve other than
    (0,0), the cofactor is 1, keys have 160 bits, and the order lies
    between 2^160 and the modulus. *)
Theorem curves_well_formed (curve : Curves) :
  let ec := curve_of curve in
  Z.prime (prime ec)
  /\ in_field (prime ec) (a ec) /\ in_field (prime ec) (b ec)
  /\ (4 * a ec ^ 3 + 27 * b ec ^ 2) mod prime ec <> 0
  /\ field_point (prime ec) (G ec) /\ is_identity (G ec) = false
  /\ on_curve (G ec) ec = true
  /\ cofactor ec = 1 /\ key_size_bits ec = 160
  /\ 2 ^ 160 < order ec < prime ec.
Proof.
  cbv zeta. split; [apply curve_of_prime |].
  unfold field_point, in_field.
  destruct curve; vm_compute; repeat split; congruence.
Qed.

Lemma curve_of_field (curve : Curves) :
  1 < prime (curve_of curve)
  /\ in_field (prime (curve_of curve)) (a (curve_of curve))
  /\ field_point (prime (curve_of curve)) (G (curve_of curve)).
Proof.
  unfold field_point, in_field. destruct curve; vm_compute; repeat split; congruence.
Qed.

(** X17. The public key of a generated key pair is the encoding of the
    private scalar times the generator of the chosen curve, a field point:
    decoding the public key gives that point back. *)
Theorem public_key_decodes (curve : Curves) (urandom : list Byte.byte) :
  let key_pair := gen_key_pair curve urandom in
  let Q := scalar_mult (G (curve_of curve)) (private key_pair) (curve_of curve) in
  ec key_pair = curve_of curve
  /\ field_point (prime (curve_of curve)) Q
  /\ public key_pair = fst (point_to_str Q)
  /\ str_to_point (public key_pair) = Returned Q.
Proof.
  cbv zeta. destruct (curve_of_field curve) as (Hp & Ha & HG).
  assert (HQ : field_point (prime (curve_of curve))
                 (scalar_mult (G (curve_of curve)) (private (gen_key_pair curve urandom))
                    (curve_of curve))).
  { unfold scalar_mult; cbv zeta. rewrite copy_point_id.
    apply scalar_mult_loop_field_point; try assumption.
    unfold field_point, in_field, create_point; cbn [x y]. lia. }
  split; [reflexivity |]. split; [exact HQ |]. split; [reflexivity |].
  assert (Hpub : public (gen_key_pair curve urandom)
                 = fst (point_to_str (scalar_mult (G (curve_of curve))
                     (private (gen_key_pair curve urandom)) (curve_of curve))))
    by reflexivity.
  rewrite Hpub. destruct HQ as [Hx Hy]. unfold in_field in Hx, Hy.
  apply point_roundtrip; lia.
Qed.

(** X18. [get_secret] has no result for a peer string of fewer than two
    characters, and returns a string for every longer one; for the encoding
    of a point with non-negative coordinates it returns the encoding of the
    private scalar times that point. *)
Theorem get_secret_outcome (key_pair : KeyPair) (peer : str) (Q : Point) :
  ((List.length peer < 2)%nat -> get_secret key_pair peer = Undefined)
  /\ ((2 <= List.length peer)%nat -> exists secret, get_secret key_pair peer = Returned secret)
  /\ (0 <= x Q -> 0 <= y Q ->
      get_secret key_pair (fst (point_to_str Q))
      = Returned (fst (point_to_str (scalar_mult Q (private key_pair) (ec key_pair))))).
Proof.
  split; [| split].
  - intros Hlen. unfold get_secret, str_to_point; cbv zeta.
    rewrite Nat.div_small by exact Hlen. reflexivity.
  - intros Hlen. unfold get_secret, str_to_point; cbv zeta.
    assert (1 <= List.length peer / 2)%nat by (apply Nat.div_le_lower_bound; lia).
    destruct (Z.ltb_spec (Z.of_nat (List.length peer / 2) - 1) 0); [lia |].
    cbn [bind]. eauto.
  - intros Hx Hy. unfold get_secret. rewrite point_roundtrip by assumption. reflexivity.
Qed.

Lemma get_secret_outcome_witness :
  let key_pair := {| private := 5; public := lit "0400"; ec := small_curve |} in
  let Q := {| x := 2; y := 3 |} in
  (List.length (lit "0") < 2)%nat /\ get_secret key_pair (lit "0") = Undefined
  /\ (2 <= List.length (lit "0423"))%nat
  /\ (exists secret, get_secret key_pair (lit "0423") = Returned secret)
  /\ 0 <= x Q /\ 0 <= y Q
  /\ get_secret key_pair (fst (point_to_str Q))
     = Returned (fst (point_to_str (scalar_mult Q (private key_pair) (ec key_pair)))).
Proof.
  cbv zeta.
  assert (H1 : (List.length (lit "0") < 2)%nat) by (cbn; lia).
  assert (H2 : (2 <= List.length (lit "0423"))%nat) by (cbn; lia).
  assert (Hx : 0 <= x {| x := 2; y := 3 |}) by (cbn; lia).
  assert (Hy : 0 <= y {| x := 2; y := 3 |}) by (cbn; lia).
  exact (conj H1
          (conj (proj1 (get_secret_outcome _ (lit "0") {| x := 2; y := 3 |}) H1)
            (conj H2
              (conj (proj1 (proj2 (get_secret_outcome _ (lit "0423") {| x := 2; y := 3 |})) H2)
                (conj Hx (conj Hy
                  (proj2 (proj2 (get_secret_outcome
                     {| private := 5; public := lit "0400"; ec := small_curve |}
                     (lit "0423") {| x := 2; y := 3 |})) Hx Hy))))))).
Defined.

Lemma secrets_match_refl (s : str) (len : nat) : secrets_match s s len = true.
Proof.
  unfold secrets_match. apply forallb_forall. intros i _. apply Ascii.eqb_refl.
Qed.

(** X19. Every run of [main] passes its assertions and returns 0, whatever
    the arguments and the random bytes are.  It prints nothing unless it is
    given the one argument "-v" (or one that starts so); then it prints the
    two key pairs and the same secret for Alice and for Bob. *)
Theorem main_returns_zero (argv : list str) (urandom_alice urandom_bob : list Byte.byte) :
  let alice := gen_key_pair SECP_192_K1 urandom_alice in
  let bob := gen_key_pair SECP_192_K1 urandom_bob in
  exists secret,
    get_secret alice (public bob) = Returned secret
    /\ get_secret bob (public alice) = Returned secret
    /\ main argv urandom_alice urandom_bob
       = Exit 0
           (if verbose argv then
              (printf_s (lit "Alice's private key is ") (fst (scalar_to_str (private alice)))
               ++ printf_s (lit "Alice's public key is  ") (public alice)
               ++ printf_s (lit "-------") []
               ++ printf_s (lit "Bob's private key is   ") (fst (scalar_to_str (private bob)))
               ++ printf_s (lit "Bob's public key is    ") (public bob)
               ++ printf_s (lit "-------") [])
              ++ printf_s (lit "Alice's secret is ") secret
              ++ printf_s (lit "Bob's secret is   ") secret
            else []).
Proof.
  cbv zeta. unfold main; cbv zeta. unfold gen_key_pair.
  destruct (key_agreement_checked (curve_of SECP_192_K1) urandom_alice urandom_bob
              (curve_of_prime SECP_192_K1) (curve_of_checks SECP_192_K1))
    as (secret & HA & HB).
  exists secret. split; [exact HA |]. split; [exact HB |].
  generalize dependent (gen_key_pair_on (curve_of SECP_192_K1) urandom_alice).
  generalize dependent (gen_key_pair_on (curve_of SECP_192_K1) urandom_bob).
  intros bob alice HA HB. rewrite HA, HB.
  rewrite Nat.eqb_refl, secrets_match_refl. cbn [negb].
  destruct (verbose argv); reflexivity.
Qed.
